(** * The proof-of-stake staker of bcoin (BlackCoin fork): a shallow embedding

    The development follows three source files:
    - [abstractblock.js]: the 80-byte block header, [writeHead] and
      [readHead];
    - [pos.js]: the kernel predicate [checkStakeKernelHash];
    - [lib/mining/stdstaker.js]: the staker, its mining job, the nonce
      search and the stake search.

    JavaScript numbers are modelled as [Z]; this is exact as long as the
    values are safe integers (below 2^53), which holds for heights,
    timestamps, nonces and amounts.  Where the source multiplies beyond that
    range ([getHashes]) the rounding of doubles is written out.  The 32-bit
    operators ([&], [~], [|]) go through [ToInt32].  Exceptions are values
    of [result]; an [async] function returns a [Promise].  [ReadError]
    stands for the error of the buffer reader on a read past the end of its
    data: the reader is not among the source files, and the class and the
    message of its error are left open. *)

From Stdlib Require Import ZArith Zwf List String Ascii Bool Lia.
From Stdlib.Strings Require Import Byte.
From Equations Require Import Equations.
Import ListNotations.
Local Open Scope Z_scope.

(** ** JavaScript values and control *)

Module JS.

Inductive Error : Type :=
| AssertionError (msg : string)
| TypeError (msg : string)
| ReadError.

Inductive result (A : Type) : Type :=
| Ok (a : A)
| Throw (e : Error).
Arguments Ok {A} a.
Arguments Throw {A} e.

Definition bind {A B : Type} (r : result A) (k : A -> result B) : result B :=
  match r with
  | Ok a => k a
  | Throw e => Throw e
  end.

(** [assert(cond, msg)] of Node's [assert] module. *)
Definition assert (cond : bool) (msg : string) : result unit :=
  if cond then Ok tt else Throw (AssertionError msg).

(** The value an [async function] hands back: a promise that is fulfilled
    with the returned value or rejected with the thrown error. *)
Inductive Promise (A : Type) : Type :=
| Fulfilled (a : A)
| Rejected (e : Error).
Arguments Fulfilled {A} a.
Arguments Rejected {A} e.

Definition async {A : Type} (r : result A) : Promise A :=
  match r with
  | Ok a => Fulfilled a
  | Throw e => Rejected e
  end.

(** What an [if (x)] sees when [x] is either the boolean it was initialised
    with or a promise that was never awaited: an object is always truthy. *)
Inductive Flag (A : Type) : Type :=
| FBool (b : bool)
| FPromise (p : Promise A).
Arguments FBool {A} b.
Arguments FPromise {A} p.

Definition truthy {A : Type} (f : Flag A) : bool :=
  match f with
  | FBool b => b
  | FPromise _ => true
  end.

(** 32-bit integer conversions of the bitwise operators. *)
Definition ToInt32 (z : Z) : Z := (z + 2 ^ 31) mod 2 ^ 32 - 2 ^ 31.
Definition ToUint32 (z : Z) : Z := z mod 2 ^ 32.

Definition bitand (a b : Z) : Z := ToInt32 (Z.land (ToInt32 a) (ToInt32 b)).
Definition bitor (a b : Z) : Z := ToInt32 (Z.lor (ToInt32 a) (ToInt32 b)).
Definition bitnot (a : Z) : Z := ToInt32 (Z.lnot (ToInt32 a)).

(** Rounding of an integer to the nearest double (53-bit significand, ties
    to even): the value of an arithmetic operation whose exact result is the
    integer [z]. *)
Definition round53 (z : Z) : Z :=
  let a := Z.abs z in
  if a <? 2 ^ 53 then z
  else
    let e := Z.log2 a - 52 in
    let q := a / 2 ^ e in
    let r := a mod 2 ^ e in
    let half := 2 ^ (e - 1) in
    let q' := if r <? half then q
              else if half <? r then q + 1
              else if Z.even q then q else q + 1 in
    Z.sgn z * (q' * 2 ^ e).

Definition num_add (a b : Z) : Z := round53 (a + b).
Definition num_mul (a b : Z) : Z := round53 (a * b).

Definition MAX_SAFE_INTEGER : Z := 2 ^ 53 - 1.

End JS.

Import JS.

Declare Scope js_scope.
Notation "x <- r ;; k" := (JS.bind r (fun x => k))
  (at level 61, r at next level, right associativity) : js_scope.
Notation "r ;;; k" := (JS.bind r (fun _ => k))
  (at level 61, right associativity) : js_scope.
Local Open Scope js_scope.

(** ** Bytes, little-endian integers and hex strings *)

Module Bytes.

Definition byte_of_Z (z : Z) : byte :=
  match Byte.of_N (Z.to_N (z mod 256)) with
  | Some b => b
  | None => x00
  end.

Definition Z_of_byte (b : byte) : Z := Z.of_N (Byte.to_N b).

(** The [n] low bytes of [z], least significant first. *)
Fixpoint le_encode (n : nat) (z : Z) : list byte :=
  match n with
  | O => []
  | S k => byte_of_Z z :: le_encode k (z / 256)
  end.

(** The integer a byte string denotes, least significant byte first. *)
Fixpoint le_decode (bs : list byte) : Z :=
  match bs with
  | [] => 0
  | b :: rest => Z_of_byte b + 256 * le_decode rest
  end.

(** The same with the most significant byte first (SHA-256 words). *)
Definition be_encode (n : nat) (z : Z) : list byte := rev (le_encode n z).
Definition be_decode (bs : list byte) : Z := le_decode (rev bs).

End Bytes.

Module Hex.

Definition digits : list ascii := list_ascii_of_string "0123456789abcdef".

Definition digit (n : Z) : ascii := nth (Z.to_nat n) digits "0"%char.

(** The value of a hex digit; Node accepts both cases when decoding. *)
Definition value (c : ascii) : option Z :=
  let n := Z.of_N (N_of_ascii c) in
  if (48 <=? n) && (n <=? 57) then Some (n - 48)
  else if (97 <=? n) && (n <=? 102) then Some (n - 87)
  else if (65 <=? n) && (n <=? 70) then Some (n - 55)
  else None.

(** [buf.toString('hex')]: two lower-case digits per byte. *)
Fixpoint encode (bs : list byte) : string :=
  match bs with
  | [] => EmptyString
  | b :: rest =>
      let n := Bytes.Z_of_byte b in
      String (digit (n / 16)) (String (digit (n mod 16)) (encode rest))
  end.

(** Decoding of a hex string; [None] on an odd length or a character that
    is no hex digit. *)
Fixpoint decode (s : string) : option (list byte) :=
  match s with
  | EmptyString => Some []
  | String _ EmptyString => None
  | String c1 (String c2 rest) =>
      match value c1, value c2, decode rest with
      | Some h, Some l, Some bs => Some (Bytes.byte_of_Z (16 * h + l) :: bs)
      | _, _, _ => None
      end
  end.

(** Lower-case hex digits: the form in which bcoin keeps hashes. *)
Definition is_lower (c : ascii) : bool :=
  let n := Z.of_N (N_of_ascii c) in
  ((48 <=? n) && (n <=? 57)) || ((97 <=? n) && (n <=? 102)).

Fixpoint all_lower (s : string) : bool :=
  match s with
  | EmptyString => true
  | String c rest => is_lower c && all_lower rest
  end.

End Hex.

(** A hash as bcoin's primitives hold it: a hex string of 64 digits. *)
Definition Hash : Type := string.

Definition is_hash (h : Hash) : bool :=
  (Nat.eqb (String.length h) 64) && Hex.all_lower h.

(** The 32 bytes of a hash, in wire order. *)
Definition hash_bytes (h : Hash) : option (list byte) :=
  if Nat.eqb (String.length h) 64 then Hex.decode h else None.

(** ** Buffer writer and reader

    [utils/staticwriter] and [utils/reader] are not among the source files.
    The spec fixes the wire format: integers are serialized little-endian
    on four bytes, a hash is appended as its 32 bytes in wire order. *)

Module Wire.

Record StaticWriter : Type := mkWriter {
  capacity : nat;
  written : list byte
}.

Definition new_writer (size : nat) : StaticWriter := mkWriter size [].

(** Modelled from the spec: [writeU32] of the missing [utils/staticwriter];
    the four low bytes of the value, least significant first. *)
Definition writeU32 (value : Z) (bw : StaticWriter) : StaticWriter :=
  mkWriter (capacity bw) (written bw ++ Bytes.le_encode 4 value).

(** Modelled from the spec: [writeHash] of the missing
    [utils/staticwriter]; a hash held as a hex string is appended as the 32
    bytes it denotes, after the assertion that it has 64 digits. *)
Definition writeHash (value : Hash) (bw : StaticWriter) : result StaticWriter :=
  JS.assert (Nat.eqb (String.length value) 64) "value.length === 64" ;;;
  match Hex.decode value with
  | Some bs => Ok (mkWriter (capacity bw) (written bw ++ bs))
  | None => Throw (TypeError "Invalid hex string")
  end.

(** Modelled from the spec: [bw.data] of the missing [utils/staticwriter],
    the buffer; meaningful once [capacity] bytes were written, which every
    caller below does. *)
Definition data (bw : StaticWriter) : list byte := written bw.

(** Modelled from the spec: [render] of the missing [utils/staticwriter];
    the buffer, which must have been filled. *)
Definition render (bw : StaticWriter) : result (list byte) :=
  JS.assert (Nat.eqb (List.length (written bw)) (capacity bw))
            "this.written === this.data.length" ;;;
  Ok (written bw).

(** The reader: the bytes not yet consumed. *)
Record BufferReader : Type := mkReader {
  left : list byte
}.

Definition new_reader (bs : list byte) : BufferReader := mkReader bs.

(** Modelled from the spec: the reads of the missing [utils/reader]; each
    consumes the bytes it returns.  A read of more bytes than are left
    consumes nothing and throws the error of the reader, left open as
    [ReadError]. *)
Definition readBytes (n : nat) (br : BufferReader)
  : result (list byte * BufferReader) :=
  if Nat.leb n (List.length (left br))
  then Ok (firstn n (left br), mkReader (skipn n (left br)))
  else Throw ReadError.

(** Modelled from the spec: [readU32] of the missing [utils/reader]; four
    bytes as a little-endian integer. *)
Definition readU32 (br : BufferReader) : result (Z * BufferReader) :=
  r <- readBytes 4 br ;;
  Ok (Bytes.le_decode (fst r), snd r).

(** Modelled from the spec: [readHash('hex')] of the missing
    [utils/reader]; 32 bytes as a lower-case hex string. *)
Definition readHash_hex (br : BufferReader) : result (Hash * BufferReader) :=
  r <- readBytes 32 br ;;
  Ok (Hex.encode (fst r), snd r).

End Wire.

(** ** SHA-256 and the double hash

    [crypto/digest] is not among the source files; the spec says that
    [hash256] denotes double SHA-256.  SHA-256 is written after FIPS 180-4;
    its constants are derived from the square and cube roots of the first
    primes, as the standard defines them. *)

Module Digest.

Definition w32 (z : Z) : Z := z mod 2 ^ 32.

Definition rotr (n x : Z) : Z :=
  Z.lor (Z.shiftr x n) (w32 (Z.shiftl x (32 - n))).

Definition xor3 (a b c : Z) : Z := Z.lxor a (Z.lxor b c).

Definition Ch (x y z : Z) : Z :=
  Z.lxor (Z.land x y) (Z.land (Z.lxor x (2 ^ 32 - 1)) z).
Definition Maj (x y z : Z) : Z :=
  xor3 (Z.land x y) (Z.land x z) (Z.land y z).
Definition Sigma0 (x : Z) : Z := xor3 (rotr 2 x) (rotr 13 x) (rotr 22 x).
Definition Sigma1 (x : Z) : Z := xor3 (rotr 6 x) (rotr 11 x) (rotr 25 x).
Definition sigma0 (x : Z) : Z := xor3 (rotr 7 x) (rotr 18 x) (Z.shiftr x 3).
Definition sigma1 (x : Z) : Z := xor3 (rotr 17 x) (rotr 19 x) (Z.shiftr x 10).

Definition is_prime (n : nat) : bool :=
  forallb (fun d => negb (Nat.eqb (Nat.modulo n d) 0)) (seq 2 (n - 2)).

(** The first 64 primes, 2 to 311. *)
Definition primes : list Z :=
  map Z.of_nat (filter is_prime (seq 2 310)).

(** Integer cube root, built bit by bit from bit [n - 1] down. *)
Fixpoint cbrt_bits (n : nat) (x r : Z) : Z :=
  match n with
  | O => r
  | S k =>
      let c := r + 2 ^ Z.of_nat k in
      if c * c * c <=? x then cbrt_bits k x c else cbrt_bits k x r
  end.

(** First 32 bits of the fractional part of the cube root of a prime. *)
Definition K_of (p : Z) : Z := w32 (cbrt_bits 36 (p * 2 ^ 96) 0).
(** First 32 bits of the fractional part of its square root. *)
Definition H_of (p : Z) : Z := w32 (Z.sqrt (p * 2 ^ 64)).

Definition K : list Z := Eval vm_compute in map K_of primes.
Definition H0 : list Z := Eval vm_compute in map H_of (firstn 8 primes).

(** Message schedule: [n] more words after the ones in [ws]. *)
Fixpoint expand (n : nat) (ws : list Z) : list Z :=
  match n with
  | O => ws
  | S k =>
      let t := List.length ws in
      let w i := nth (t - i) ws 0 in
      expand k (ws ++ [w32 (sigma1 (w 2%nat) + w 7%nat + sigma0 (w 15%nat) + w 16%nat)])
  end.

Definition round (st : list Z) (kw : Z * Z) : list Z :=
  match st with
  | [a; b; c; d; e; f; g; h] =>
      let t1 := h + Sigma1 e + Ch e f g + fst kw + snd kw in
      let t2 := Sigma0 a + Maj a b c in
      [w32 (t1 + t2); a; b; c; w32 (d + t1); e; f; g]
  | _ => st
  end.

Fixpoint words (n : nat) (bs : list byte) : list Z :=
  match n with
  | O => []
  | S k => Bytes.be_decode (firstn 4 bs) :: words k (skipn 4 bs)
  end.

Definition compress (h : list Z) (block : list byte) : list Z :=
  let ws := expand 48 (words 16 block) in
  let st := fold_left round (combine K ws) h in
  map (fun p => w32 (fst p + snd p)) (combine h st).

Definition pad (msg : list byte) : list byte :=
  let len := Z.of_nat (List.length msg) in
  msg ++ [x80] ++ repeat x00 (Z.to_nat ((55 - len) mod 64))
      ++ Bytes.be_encode 8 (8 * len).

Fixpoint blocks (n : nat) (bs : list byte) : list (list byte) :=
  match n, bs with
  | O, _ => []
  | _, [] => []
  | S k, _ => firstn 64 bs :: blocks k (skipn 64 bs)
  end.

(** Modelled from the spec: SHA-256, on which the missing [crypto/digest]
    rests. *)
Definition sha256 (msg : list byte) : list byte :=
  let p := pad msg in
  let h := fold_left compress (blocks (List.length p) p) H0 in
  List.concat (map (Bytes.be_encode 4) h).

(** Modelled from the spec: [digest.hash256] of the missing
    [crypto/digest], double SHA-256. *)
Definition hash256 (msg : list byte) : list byte := sha256 (sha256 msg).

End Digest.

(** ** Big numbers

    [crypto/bn] is not among the source files; it is bn.js.  A big number
    is an integer.  The constructor on a string is modelled on bn.js, since
    the kernel calls it in a way the spec has no words for: [new BN(str,
    'le')] with a string and without a base. *)

Module BN.

(** [parseBase] of bn.js, one character: the character code minus 48; from
    ['a'] on and from ['A'] on it counts from 10.  The digit is not checked
    against the base. *)
Definition digit (c : ascii) : Z :=
  let c := Z.of_N (N_of_ascii c) - 48 in
  if 49 <=? c then c - 49 + 10
  else if 17 <=? c then c - 17 + 10
  else c.

(** [_parseBase] of bn.js: the characters of [str] as digits of the number
    in base [mul], most significant first, added to [r] shifted. *)
Fixpoint parseBase (r : Z) (str : string) (mul : Z) : Z :=
  match str with
  | EmptyString => r
  | String c rest => parseBase (r * mul + digit c) rest mul
  end.

(** [byteLength()] of bn.js: the bytes a non-negative number takes. *)
Definition byteLength (n : Z) : Z :=
  if n =? 0 then 0 else (Z.log2 n + 8) / 8.

(** [toArray()] of bn.js: the bytes of the number, most significant first,
    as many as it takes and at least one. *)
Definition toArray (n : Z) : list byte :=
  Bytes.be_encode (Z.to_nat (Z.max 1 (byteLength n))) n.

(** [new BN(number, 'le')] of bn.js for a string [number] of digits and
    letters.  An endianness where the base is expected is taken as the
    endianness and the base is set to 10: the string is parsed in base 10,
    and for ['le'] the number is made anew from its own bytes, read least
    significant first ([this._initArray(this.toArray(), base, endian)]),
    which reverses the bytes of the number parsed. *)
Definition of_string_le (number : string) : Z :=
  let base := 10 in
  let parsed := parseBase 0 number base in
  Bytes.le_decode (toArray parsed).

(** Modelled from the spec: [new BN(n, 10)] of the missing [crypto/bn],
    the integer [n]. *)
Definition of_number (n : Z) : Z := n.

(** Modelled from the spec: [div] of the missing [crypto/bn], integer
    division with truncation. *)
Definition div (a b : Z) : Z := Z.quot a b.

(** Modelled from the spec: [cmp] of the missing [crypto/bn], the
    comparison of big integers, as -1, 0 or 1. *)
Definition cmp (a b : Z) : Z :=
  match a ?= b with
  | Lt => -1
  | Eq => 0
  | Gt => 1
  end.

End BN.

(** ** Compact targets

    [protocol/consensus] is not among the source files.  The functions
    below are Bitcoin's compact ("nBits") encoding, which the spec names as
    the consensus encoding of a 256-bit threshold.  They serve as the
    reference instance of [Primitives]; the theorems about the kernel hold
    for every instance. *)

Module Compact.

(** Modelled from the spec: [consensus.fromCompact] of the missing
    [protocol/consensus]; the threshold a compact target denotes: a 23-bit
    mantissa shifted by the byte exponent, with a sign bit. *)
Definition fromCompact (compact : Z) : Z :=
  let c := JS.ToUint32 compact in
  if c =? 0 then 0
  else
    let exponent := Z.shiftr c 24 in
    let negative := Z.land (Z.shiftr c 23) 1 in
    let mantissa := Z.land c (2 ^ 23 - 1) in
    let num := if exponent <=? 3
               then Z.shiftr mantissa (8 * (3 - exponent))
               else Z.shiftl mantissa (8 * (exponent - 3)) in
    if negative =? 0 then num else - num.

Definition byteLength (n : Z) : Z :=
  if n =? 0 then 0 else (Z.log2 (Z.abs n) + 8) / 8.

(** Modelled from the spec: [consensus.toCompact] of the missing
    [protocol/consensus]; the compact form of a big integer. *)
Definition toCompact (num : Z) : Z :=
  if num =? 0 then 0
  else
    let exponent := byteLength num in
    let a := Z.abs num in
    let mantissa := if exponent <=? 3
                    then Z.shiftl a (8 * (3 - exponent))
                    else Z.shiftr a (8 * (exponent - 3)) in
    let '(mantissa, exponent) :=
      if Z.land mantissa (2 ^ 23) =? 0 then (mantissa, exponent)
      else (Z.shiftr mantissa 8, exponent + 1) in
    let compact := Z.lor (Z.shiftl exponent 24) mantissa in
    JS.ToUint32 (if num <? 0 then Z.lor compact (2 ^ 23) else compact).

End Compact.

(** The collaborators of the kernel that are not among the source files,
    taken as parameters: the digest and the consensus table. *)
Class Primitives : Type := {
  hash256 : list byte -> list byte;
  fromCompact : Z -> Z;
  toCompact : Z -> Z;
  STAKE_MIN_CONFIRMATIONS : Z
}.

(** Double SHA-256, Bitcoin's compact encoding and BlackCoin's depth of 500
    blocks. *)
Definition reference_primitives : Primitives := {|
  hash256 := Digest.hash256;
  fromCompact := Compact.fromCompact;
  toCompact := Compact.toCompact;
  STAKE_MIN_CONFIRMATIONS := 500
|}.

(** ** abstractblock.js *)

Module AbstractBlock.

Record t : Type := mk {
  version : Z;
  prevBlock : Hash;
  merkleRoot : Hash;
  ts : Z;
  bits : Z;
  nonce : Z;
  mutable : bool;
  _hash : option (list byte);
  _hhash : option string
}.

(** Modelled from the spec: [encoding.NULL_HASH] of the missing
    [utils/encoding], 64 zero digits. *)
Definition NULL_HASH : Hash := Hex.encode (repeat x00 32).

(** [new AbstractBlock()]. *)
Definition create : t :=
  mk 1 NULL_HASH NULL_HASH 0 0 0 false None None.

(** The six fields of the header. *)
Definition same_header (a b : t) : Prop :=
  version a = version b /\ prevBlock a = prevBlock b /\
  merkleRoot a = merkleRoot b /\ ts a = ts b /\ bits a = bits b /\
  nonce a = nonce b.

Definition writeHead (self : t) (bw : Wire.StaticWriter)
  : result Wire.StaticWriter :=
  let bw := Wire.writeU32 (version self) bw in
  bw <- Wire.writeHash (prevBlock self) bw ;;
  bw <- Wire.writeHash (merkleRoot self) bw ;;
  let bw := Wire.writeU32 (ts self) bw in
  let bw := Wire.writeU32 (bits self) bw in
  let bw := Wire.writeU32 (nonce self) bw in
  Ok bw.

Definition set_version (v : Z) (self : t) : t :=
  mk v (prevBlock self) (merkleRoot self) (ts self) (bits self) (nonce self)
     (mutable self) (_hash self) (_hhash self).

Definition set_prevBlock (h : Hash) (self : t) : t :=
  mk (version self) h (merkleRoot self) (ts self) (bits self) (nonce self)
     (mutable self) (_hash self) (_hhash self).

Definition set_merkleRoot (h : Hash) (self : t) : t :=
  mk (version self) (prevBlock self) h (ts self) (bits self) (nonce self)
     (mutable self) (_hash self) (_hhash self).

Definition set_ts (v : Z) (self : t) : t :=
  mk (version self) (prevBlock self) (merkleRoot self) v (bits self)
     (nonce self) (mutable self) (_hash self) (_hhash self).

Definition set_bits (v : Z) (self : t) : t :=
  mk (version self) (prevBlock self) (merkleRoot self) (ts self) v
     (nonce self) (mutable self) (_hash self) (_hhash self).

Definition set_nonce (v : Z) (self : t) : t :=
  mk (version self) (prevBlock self) (merkleRoot self) (ts self) (bits self)
     v (mutable self) (_hash self) (_hhash self).

(** [readHead] assigns the six fields of [this] one after the other, each
    as soon as it is read, and returns [this] with the reader left after
    the header.  A read that throws ends the call with the fields assigned
    before it overwritten.  The second component is the block as the call
    leaves it. *)
Definition readHead (self : t) (br : Wire.BufferReader)
  : result (t * Wire.BufferReader) * t :=
  match Wire.readU32 br with
  | Throw e => (Throw e, self)
  | Ok (version, br) =>
      let self := set_version version self in
      match Wire.readHash_hex br with
      | Throw e => (Throw e, self)
      | Ok (prevBlock, br) =>
          let self := set_prevBlock prevBlock self in
          match Wire.readHash_hex br with
          | Throw e => (Throw e, self)
          | Ok (merkleRoot, br) =>
              let self := set_merkleRoot merkleRoot self in
              match Wire.readU32 br with
              | Throw e => (Throw e, self)
              | Ok (ts, br) =>
                  let self := set_ts ts self in
                  match Wire.readU32 br with
                  | Throw e => (Throw e, self)
                  | Ok (bits, br) =>
                      let self := set_bits bits self in
                      match Wire.readU32 br with
                      | Throw e => (Throw e, self)
                      | Ok (nonce, br) =>
                          let self := set_nonce nonce self in
                          (Ok (self, br), self)
                      end
                  end
              end
          end
      end
  end.

Definition toHead (self : t) : result (list byte) :=
  bw <- writeHead self (Wire.new_writer 80) ;;
  Wire.render bw.

(** [fromHead] returns what [readHead] returns, the block; the second
    component is the block as the call leaves it, also when it throws. *)
Definition fromHead (self : t) (data : list byte) : result t * t :=
  match readHead self (Wire.new_reader data) with
  | (Ok (b, _), self) => (Ok b, self)
  | (Throw e, self) => (Throw e, self)
  end.

(** The wire format in the words of the spec: [u32 version || 32B
    prevBlock || 32B merkleRoot || u32 ts || u32 bits || u32 nonce],
    integers little-endian, [pb] and [mr] being the bytes of the hashes. *)
Definition header_bytes (h : t) (pb mr : list byte) : list byte :=
  Bytes.le_encode 4 (version h) ++ pb ++ mr ++ Bytes.le_encode 4 (ts h)
    ++ Bytes.le_encode 4 (bits h) ++ Bytes.le_encode 4 (nonce h).

(** A header whose fields are in range: four 32-bit unsigned integers and
    two hashes. *)
Definition u32 (z : Z) : Prop := 0 <= z < 2 ^ 32.

Definition well_formed (h : t) : Prop :=
  u32 (version h) /\ u32 (ts h) /\ u32 (bits h) /\ u32 (nonce h) /\
  is_hash (prevBlock h) = true /\ is_hash (merkleRoot h) = true.

End AbstractBlock.

(** ** pos.js *)

(** The chain entry of the tip. *)
Module ChainEntry.
Record t : Type := mk {
  height : Z;
  prevBlock : Hash;
  stakeModifier : Hash
}.
End ChainEntry.

Module Output.
Record t : Type := mk {
  value : Z
}.
End Output.

(** The outputs of a confirmed transaction, as [chain.db.getCoins] returns
    them; [getOutput] is [null] (here [None]) where there is no output. *)
Module Coins.
Record t : Type := mk {
  height : Z;
  nTime : Z;
  getOutput : Z -> option Output.t
}.
End Coins.

(** A coin of the wallet; it is also what the kernel receives as the
    outpoint [previousout], of which it reads [hash] and [index]. *)
Module Coin.
Record t : Type := mk {
  hash : Hash;
  index : Z;
  value : Z;
  address : string
}.
End Coin.

Module Pos.

Section Kernel.
Context {P : Primitives}.

(** The 76 bytes that are hashed. *)
Definition proofOfStake (prev : ChainEntry.t) (coin : Coins.t)
    (previousout : Coin.t) (timeTx : Z) : result Wire.StaticWriter :=
  let proofOfStake := Wire.new_writer (32 + 4 + 32 + 4 + 4) in
  w <- Wire.writeHash (ChainEntry.stakeModifier prev) proofOfStake ;;
  let w := Wire.writeU32 (Coins.nTime coin) w in
  w <- Wire.writeHash (Coin.hash previousout) w ;;
  let w := Wire.writeU32 (Coin.index previousout) w in
  let w := Wire.writeU32 timeTx w in
  Ok w.

Definition checkStakeKernelHash_body (prev : ChainEntry.t) (blkbits : Z)
    (coin : option Coins.t) (previousout : Coin.t) (timeTx : Z)
  : result bool :=
  let blkheight := ChainEntry.height prev + 1 in
  match coin with
  | None => Ok false
  | Some coin =>
      if blkheight - Coins.height coin <? STAKE_MIN_CONFIRMATIONS then Ok false
      else
        out <- match Coins.getOutput coin (Coin.index previousout) with
               | Some o => Ok o
               | None => Throw (TypeError "Cannot read property 'value' of null")
               end ;;
        let nValueIn := Output.value out in
        if nValueIn =? 0 then Ok false
        else
          let bnTarget := fromCompact blkbits in
          w <- proofOfStake prev coin previousout timeTx ;;
          let proofOfStakeHash := Hex.encode (hash256 (Wire.data w)) in
          let hashProofOfStake := BN.of_string_le proofOfStakeHash in
          let bgnValueIn := BN.of_number nValueIn in
          let weight := BN.div hashProofOfStake bgnValueIn in
          Ok (BN.cmp weight bnTarget <=? 0)
  end.

(** The function is [async]: its caller receives a promise. *)
Definition checkStakeKernelHash (prev : ChainEntry.t) (blkbits : Z)
    (coin : option Coins.t) (previousout : Coin.t) (timeTx : Z)
  : Promise bool :=
  JS.async (checkStakeKernelHash_body prev blkbits coin previousout timeTx).

End Kernel.

(** The bytes the spec has hashed: [stakeModifier || nTime_u32 || txHash ||
    index_u32 || timeTx_u32], integers little-endian. *)
Definition kernel_bytes (stakeModifier : list byte) (nTime : Z)
    (txHash : list byte) (index timeTx : Z) : list byte :=
  stakeModifier ++ Bytes.le_encode 4 nTime ++ txHash
    ++ Bytes.le_encode 4 index ++ Bytes.le_encode 4 timeTx.

(** The kernel predicate in the words of the spec: the double hash of these
    bytes, read as a little-endian integer and divided by the value with
    truncation, is at most the expanded target. *)
Definition kernel_spec {P : Primitives} (stakeModifier : list byte)
    (nTime : Z) (txHash : list byte) (index timeTx value blkbits : Z) : Prop :=
  Z.quot (Bytes.le_decode
            (hash256 (kernel_bytes stakeModifier nTime txHash index timeTx)))
         value
  <= fromCompact blkbits.

End Pos.

(** ** stdstaker.js *)

Module Staker.

#[local] Instance Zwf_WellFounded (c : Z) : WellFounded (Zwf c) :=
  Zwf_well_founded c.

(** What the staker leaves behind for an observer: the calls of the [mine]
    primitive, the status reports and the calls of the kernel. *)
Inductive Event : Type :=
| EvMine (min max : Z)
| EvStatus (nonce hashes : Z)
| EvKernel (target : Z) (txPrev : option Coins.t) (coin : Coin.t) (nTime : Z).

(** [util.now()] reads the wall clock: [clock w n] is the value of the
    reading number [n], [reads w] counts the readings made so far. *)
Record World : Type := mkWorld {
  clock : nat -> Z;
  reads : nat;
  trace : list Event
}.

Definition util_now (w : World) : Z * World :=
  (clock w (reads w), mkWorld (clock w) (S (reads w)) (trace w)).

Definition emit (e : Event) (w : World) : World :=
  mkWorld (clock w) (reads w) (trace w ++ [e]).

(** The slices handed to [mine], in the order of the calls. *)
Definition mine_calls (tr : list Event) : list (Z * Z) :=
  flat_map (fun e => match e with EvMine a b => [(a, b)] | _ => [] end) tr.

(** The [n] slices of width [interval] from the one of index [k] on. *)
Fixpoint slices (interval k : Z) (n : nat) : list (Z * Z) :=
  match n with
  | O => []
  | S n' => (k * interval, (k + 1) * interval) :: slices interval (k + 1) n'
  end.

(** A call of [mine] on a slice of the grid: [[k * interval, (k + 1) *
    interval)] with the upper end at most [limit]. *)
Definition on_grid (limit interval : Z) (e : Event) : Prop :=
  match e with
  | EvMine a b =>
      exists k, 0 <= k /\ a = k * interval /\ b = (k + 1) * interval /\
                b <= limit
  | _ => True
  end.

Section Model.
Context {Block Proof : Type}.

(** The block template (the job's [attempt]) is not among the source
    files; its operations are taken as functions of their arguments. *)
Record BlockTemplate : Type := mkTemplate {
  prevBlock : Hash;
  ts : Z;
  bits : Z;
  height : Z;
  target : list byte;
  getRoot : Z -> Z -> Hash;
  getHeader : Hash -> Z -> Z -> list byte;
  getProof : Z -> Z -> Z -> Z -> Proof;
  commit : Proof -> Block;
  commitCnTxTime : Z -> Coin.t -> Block
}.

Record STDJob : Type := mkJob {
  attempt : BlockTemplate;
  destroyed : bool;
  committed : bool;
  start : Z;
  nonce1 : Z;
  nonce2 : Z
}.

Definition set_destroyed (b : bool) (j : STDJob) : STDJob :=
  mkJob (attempt j) b (committed j) (start j) (nonce1 j) (nonce2 j).

Definition set_committed (b : bool) (j : STDJob) : STDJob :=
  mkJob (attempt j) (destroyed j) b (start j) (nonce1 j) (nonce2 j).

(** [new STDJob(miner, attempt)] at time [now]. *)
Definition new_job (attempt : BlockTemplate) (now : Z) : STDJob :=
  mkJob attempt false false now 0 0.

(** A method of the job returns or throws, and leaves the job in a state. *)
Definition JobM (A : Type) : Type := STDJob -> result A * STDJob.

Definition job_getHeader (j : STDJob) : list byte :=
  let attempt := attempt j in
  let n1 := nonce1 j in
  let n2 := nonce2 j in
  let ts := ts attempt in
  let root := getRoot attempt n1 n2 in
  getHeader attempt root ts 0.

Definition job_commit (nonce : Z) : JobM Block := fun j =>
  let attempt := attempt j in
  let n1 := nonce1 j in
  let n2 := nonce2 j in
  let ts := ts attempt in
  match JS.assert (negb (committed j)) "Job already committed." with
  | Throw e => (Throw e, j)
  | Ok _ =>
      let j := set_committed true j in
      let proof := getProof attempt n1 n2 ts nonce in
      (Ok (commit attempt proof), j)
  end.

Definition job_commitCnTxTime (nTime : Z) (stakeCoin : Coin.t) : JobM Block :=
  fun j =>
  match JS.assert (negb (committed j)) "Job already committed." with
  | Throw e => (Throw e, j)
  | Ok _ =>
      let j := set_committed true j in
      (Ok (commitCnTxTime (attempt j) nTime stakeCoin), j)
  end.

Definition updateNonce (j : STDJob) : STDJob :=
  let n2 := JS.num_add (nonce2 j) 1 in
  if n2 =? 0x100000000
  then mkJob (attempt j) (destroyed j) (committed j) (start j)
             (JS.num_add (nonce1 j) 1) 0
  else mkJob (attempt j) (destroyed j) (committed j) (start j) (nonce1 j) n2.

Definition destroy : JobM unit := fun j =>
  match JS.assert (negb (destroyed j)) "Job already destroyed." with
  | Throw e => (Throw e, j)
  | Ok _ => (Ok tt, set_destroyed true j)
  end.

Definition getHashes (j : STDJob) (nonce : Z) : Z :=
  let extra := JS.num_add (JS.num_mul (nonce1 j) 0x100000000) (nonce2 j) in
  JS.num_add (JS.num_mul extra 0xffffffff) nonce.

(** The chain and the wallet as the staker uses them. *)
Record Chain : Type := mkChain {
  tip : ChainEntry.t;
  getCoins : Hash -> option Coins.t
}.

(** [signStaked] stands for the three signing steps at the end of the stake
    search: the coinstake is signed again through the wallet, and the block
    with the key of the stake coin's address. *)
Record Wallet : Type := mkWallet {
  coins : list Coin.t;
  signStaked : Block -> Coin.t -> Block
}.

Record STDStaker : Type := mkStaker {
  chain : Chain;
  wallet : Wallet;
  running : bool;
  stopping : bool;
  job : option STDJob
}.

Definition set_job (o : option STDJob) (self : STDStaker) : STDStaker :=
  mkStaker (chain self) (wallet self) (running self) (stopping self) o.

Definition set_coins (cs : list Coin.t) (self : STDStaker) : STDStaker :=
  mkStaker (chain self) (mkWallet cs (signStaked (wallet self)))
           (running self) (stopping self) (job self).

(** The listener that [_init] installs on the chain's [tip] event.  The job
    is an object shared with the staker: what [destroy] does to it shows in
    [this.job]. *)
Definition onTip (tip : ChainEntry.t) (self : STDStaker)
  : result unit * STDStaker :=
  match job self with
  | None => (Ok tt, self)
  | Some j =>
      if String.eqb (prevBlock (attempt j)) (ChainEntry.prevBlock tip)
      then let (r, j') := destroy j in (r, set_job (Some j') self)
      else (Ok tt, self)
  end.

(** [STDStaker.INTERVAL = 0xffffffff / 1500 | 0]: the quotient of the
    division of doubles, truncated by the conversion to 32 bits. *)
Definition INTERVAL : Z := JS.bitor (Z.quot 0xffffffff 1500) 0.

(** [sendStatus(job, nonce)] emits [status] with the hash count; the hash
    rate, which depends on the wall clock, is left out of the event. *)
Definition sendStatus (j : STDJob) (nonce : Z) (tr : list Event) : list Event :=
  tr ++ [EvStatus nonce (getHashes j nonce)].

(** The loop of [findNonce], [while (max <= limit)] with slices of width
    [interval]: [mine] is the primitive applied to the header and to the
    target; [nonce] is [None] while the variable is undefined. *)
Section SliceLoop.
Variables limit interval : Z.
Hypothesis interval_pos : 0 < interval.

Equations? findNonce_loop (mine : Z -> Z -> Z) (j : STDJob) (min_ max_ : Z)
    (nonce : option Z) (tr : list Event) : option Z * list Event
    by wf (limit - max_) (Zwf 0) :=
  findNonce_loop mine j min_ max_ nonce tr with Z_le_gt_dec max_ limit := {
    | right _ := (nonce, tr);
    | left _ with mine min_ max_ := {
      | n with Z.eqb n (-1) := {
        | false := (Some n, tr ++ [EvMine min_ max_]);
        | true :=
            findNonce_loop mine j (min_ + interval) (max_ + interval) (Some n)
              (sendStatus j max_ (tr ++ [EvMine min_ max_])) } } }.
Proof.
  unfold Zwf. lia.
Qed.

End SliceLoop.

Definition INTERVAL_pos : 0 < INTERVAL := eq_refl.

Definition findNonce (mine : list byte -> list byte -> Z -> Z -> Z)
    (j : STDJob) : option Z * list Event :=
  let data := job_getHeader j in
  let target := target (attempt j) in
  let interval := INTERVAL in
  findNonce_loop 0xffffffff interval INTERVAL_pos (mine data target) j
                 0 interval None [].

Section Stake.
Context {P : Primitives}.

(** The inner loop of the stake search over the coins of the wallet.
    [prevOut] is the local variable of that name, whose [value] is read
    before the kernel is called.  [this.pos] is taken to be the [Pos] of
    pos.js; the kernel is called without [await], so that [foundKernel]
    holds a promise.  The result is the coin at which the loop was left
    with [foundKernel] truthy, if any. *)
Fixpoint stake_scan (self : STDStaker) (prev : ChainEntry.t)
    (prevOut : option Output.t) (nTime : Z) (coins : list Coin.t) (w : World)
  : result (option Coin.t) * World :=
  match coins with
  | [] => (Ok None, w)
  | coin :: rest =>
      let txPrev := getCoins (chain self) (Coin.hash coin) in
      match prevOut with
      | None => (Throw (TypeError "Cannot read property 'value' of undefined"), w)
      | Some o =>
          let target := toCompact (BN.of_number (Output.value o)) in
          let foundKernel :=
            FPromise (Pos.checkStakeKernelHash prev target txPrev coin nTime) in
          let w := emit (EvKernel target txPrev coin nTime) w in
          if JS.truthy foundKernel then (Ok (Some coin), w)
          else stake_scan self prev prevOut nTime rest w
      end
  end.

(** The result of the outer loop [for (;;)]. *)
Inductive Search : Type :=
| Found (nTime : Z) (stakeCoin : Coin.t) (w : World)
| Failed (e : Error) (w : World)
| Spinning.

(** The outer loop, for at most [fuel] iterations. *)
Fixpoint stake_loop (fuel : nat) (self : STDStaker) (prev : ChainEntry.t)
    (prevOut : option Output.t) (coins : list Coin.t) (nTime : Z) (w : World)
  : Search :=
  match fuel with
  | O => Spinning
  | S fuel =>
      let '(again, w) :=
        if negb (nTime =? 0)
        then let (t, w) := util_now w in (nTime + 16 =? t, w)
        else (false, w) in
      if again then stake_loop fuel self prev prevOut coins nTime w
      else
        let (t, w) := util_now w in
        let nTime := JS.bitand t (JS.bitnot 15) in
        match stake_scan self prev prevOut nTime coins w with
        | (Throw e, w) => Failed e w
        | (Ok (Some stakeCoin), w) => Found nTime stakeCoin w
        | (Ok None, w) => stake_loop fuel self prev prevOut coins nTime w
        end
  end.

(** How a run of the stake search ends within [fuel] iterations of its
    outer loop. *)
Inductive Outcome (A : Type) : Type :=
| Done (a : A) (j : STDJob) (w : World)
| OutOfFuel.
Arguments Done {A} a j w.
Arguments OutOfFuel {A}.

(** [doStake(job)]: [prevOut] is declared and never assigned, [nTime]
    starts at 0. *)
Definition doStake (fuel : nat) (self : STDStaker) (j : STDJob) (w : World)
  : Outcome (result Block) :=
  let prev := tip (chain self) in
  let prevOut : option Output.t := None in
  let nTime := 0 in
  let coins := coins (wallet self) in
  match stake_loop fuel self prev prevOut coins nTime w with
  | Spinning => OutOfFuel
  | Failed e w => Done (Throw e) j w
  | Found nTime stakeCoin w =>
      match job_commitCnTxTime nTime stakeCoin j with
      | (Throw e, j) => Done (Throw e) j w
      | (Ok stakedblock, j) =>
          Done (Ok (signStaked (wallet self) stakedblock stakeCoin)) j w
      end
  end.

(** [doStakeAsync] has the body of [doStake] and no [await]: it runs to its
    end before its promise is handed out. *)
Definition doStakeAsync (fuel : nat) (self : STDStaker) (j : STDJob)
    (w : World) : Outcome (Promise Block) :=
  match doStake fuel self j w with
  | Done r j w => Done (JS.async r) j w
  | OutOfFuel => OutOfFuel
  end.

End Stake.
End Model.

Arguments Done {Block Proof A} a j w.
Arguments OutOfFuel {Block Proof A}.

End Staker.

(** ** Sample values

    Concrete inputs at which the theorems below are instantiated and the
    functions evaluated, with [reference_primitives]. *)

Module Sample.

(** The bytes of an ASCII message. *)
Definition ascii_bytes (s : string) : list byte :=
  map byte_of_ascii (list_ascii_of_string s).

Definition hash_aa : Hash := Hex.encode (repeat xaa 32).
Definition hash_11 : Hash := Hex.encode (repeat x11 32).

(** A tip at height 1000 with stake modifier [aa..aa]. *)
Definition tip : ChainEntry.t := ChainEntry.mk 1000 hash_11 hash_aa.

(** The outputs of a transaction confirmed at [height]: one output, of
    value [value], at index 0. *)
Definition coins (height value : Z) : Coins.t :=
  Coins.mk height 1500000000
           (fun i => if i =? 0 then Some (Output.mk value) else None).

Definition outpoint : Coin.t := Coin.mk hash_11 0 100 "staking address".

(** The largest positive target: mantissa [7fffff], exponent 32. *)
Definition easy_bits : Z := 0x207fffff.
(** Bitcoin's initial target. *)
Definition hard_bits : Z := 0x1d00ffff.

Definition stake_time : Z := 0x60000000.

Definition header : AbstractBlock.t :=
  AbstractBlock.mk 7 hash_11 hash_aa stake_time easy_bits 42 false None None.

(** A template whose blocks are headers and whose proofs are the four
    numbers [getProof] receives. *)
Definition template : @Staker.BlockTemplate AbstractBlock.t (Z * Z * Z * Z) :=
  let block ts nonce :=
    AbstractBlock.mk 7 hash_11 hash_aa ts easy_bits nonce false None None in
  Staker.mkTemplate hash_11 stake_time easy_bits 1001
    (Bytes.le_encode 32 (Compact.fromCompact easy_bits))
    (fun _ _ => hash_aa)
    (fun root ts nonce =>
       match AbstractBlock.toHead
               (AbstractBlock.mk 7 hash_11 root ts easy_bits nonce
                                 false None None) with
       | Ok bytes => bytes
       | Throw _ => []
       end)
    (fun n1 n2 ts nonce => (n1, n2, ts, nonce))
    (fun proof => block (snd (fst proof)) (snd proof))
    (fun nTime _ => block nTime 0).

(** A job on that template with the given flags and extra nonces. *)
Definition job (destroyed committed : bool) (n1 n2 : Z)
  : @Staker.STDJob AbstractBlock.t (Z * Z * Z * Z) :=
  Staker.mkJob template destroyed committed stake_time n1 n2.

Definition world : Staker.World :=
  Staker.mkWorld (fun n => stake_time + Z.of_nat n) 0 [].

Definition staker (cs : list Coin.t) (j : option Staker.STDJob)
  : @Staker.STDStaker AbstractBlock.t (Z * Z * Z * Z) :=
  Staker.mkStaker
    (Staker.mkChain tip (fun _ => Some (coins 501 100)))
    (Staker.mkWallet cs (fun b _ => b))
    true false j.

(** A [mine] primitive for which the only winning nonce is the last one of
    the 32-bit space. *)
Definition last_nonce : Z := 0xffffffff.

Definition mine_last (data target : list byte) (min_ max_ : Z) : Z :=
  if (min_ <=? last_nonce) && (last_nonce <? max_) then last_nonce else -1.

End Sample.

(** ** abstractblock.js: the identity hash and its cache *)

Module BlockHash.
Import AbstractBlock.

(** What [hash(enc)] returns: the digest, or its hex string when [enc] is
    ['hex']. *)
Inductive HashValue : Type :=
| Raw (bytes : list byte)
| HexString (hex : string).

Definition set_hash (h : option (list byte)) (self : t) : t :=
  mk (version self) (prevBlock self) (merkleRoot self) (ts self) (bits self)
     (nonce self) (mutable self) h (_hhash self).

Definition set_hhash (hex : option string) (self : t) : t :=
  mk (version self) (prevBlock self) (merkleRoot self) (ts self) (bits self)
     (nonce self) (mutable self) (_hash self) hex.

(** [_refresh()] and [refresh()]: both caches are cleared. *)
Definition _refresh (self : t) : t := set_hhash None (set_hash None self).
Definition refresh (self : t) : t := _refresh self.

(** The cached hex string as [if (!hex)] sees it: [null] and the empty
    string are falsy. *)
Definition truthy_hex (self : t) : option string :=
  match _hhash self with
  | Some EmptyString => None
  | cached => cached
  end.

(** The caches agree: a cached hex string is the hex form of a cached
    digest. *)
Definition coherent (self : t) : Prop :=
  forall hex, truthy_hex self = Some hex ->
              exists digest, _hash self = Some digest /\ hex = Hex.encode digest.

Section Hash.
Context {P : Primitives}.
(** [scrypt.derive(data, data, 1024, 1, 1, 32)], of the missing
    [crypto/scrypt], as a function of [data]. *)
Variable scrypt_derive : list byte -> list byte.

(** The digest of the header by the rule of the version. *)
Definition digest_of (self : t) (data : list byte) : list byte :=
  if version self <? 7 then scrypt_derive data else hash256 data.

(** [hash(enc)]: a cached digest is returned as it is; a computed one is
    cached unless the block is mutable.  A buffer is always truthy. *)
Definition hash (enc : option string) (self : t) : result HashValue * t :=
  let computed :=
    match _hash self with
    | Some hash => Ok (hash, self)
    | None =>
        data <- toHead self ;;
        let hash := digest_of self data in
        Ok (hash, if mutable self then self else set_hash (Some hash) self)
    end in
  match computed with
  | Throw e => (Throw e, self)
  | Ok (hash, self) =>
      match enc with
      | Some "hex"%string =>
          match truthy_hex self with
          | Some hex => (Ok (HexString hex), self)
          | None =>
              let hex := Hex.encode hash in
              (Ok (HexString hex),
               if mutable self then self else set_hhash (Some hex) self)
          end
      | _ => (Ok (Raw hash), self)
      end
  end.

End Hash.

End BlockHash.

(** ** pos.js: the next stake modifier *)

Module StakeModifier.

(** Modelled from the spec: [util.hexToBytes] and [Buffer.from] of the
    missing [utils/util]; the bytes a hex string denotes. *)
Definition hexToBytes (hex : string) : result (list byte) :=
  match Hex.decode hex with
  | Some bs => Ok bs
  | None => Throw (TypeError "Invalid hex string")
  end.

(** Modelled from the spec: [writeHash] of the missing [utils/staticwriter]
    on a buffer; the assertion that it has 32 bytes, which are appended. *)
Definition writeHash_buffer (value : list byte) (bw : Wire.StaticWriter)
  : result Wire.StaticWriter :=
  JS.assert (Nat.eqb (List.length value) 32) "value.length === 32" ;;;
  Ok (Wire.mkWriter (Wire.capacity bw) (Wire.written bw ++ value)).

Definition computeStakeModifier {P : Primitives}
    (prevStakeModifier kernel : string) : result Hash :=
  let newStakeMod := Wire.new_writer 64 in
  k <- hexToBytes kernel ;;
  newStakeMod <- writeHash_buffer k newStakeMod ;;
  p <- hexToBytes prevStakeModifier ;;
  newStakeMod <- writeHash_buffer p newStakeMod ;;
  Ok (Hex.encode (hash256 (Wire.data newStakeMod))).

End StakeModifier.

(** ** stdstaker.js: the mempool listener, the stop path, the asynchronous
    search *)

Module Supervisor.
Import Staker.

#[local] Instance Zwf_wf (c : Z) : WellFounded (Zwf c) :=
  Zwf_well_founded c.

Section Model.
Context {Block Proof : Type}.

Definition set_start (now : Z) (j : @STDJob Block Proof) : STDJob :=
  mkJob (attempt j) (destroyed j) (committed j) now (nonce1 j) (nonce2 j).

Definition set_running (b : bool) (self : @STDStaker Block Proof) : STDStaker :=
  mkStaker (chain self) (wallet self) b (stopping self) (job self).

Definition set_stopping (b : bool) (self : @STDStaker Block Proof) : STDStaker :=
  mkStaker (chain self) (wallet self) (running self) b (job self).

(** The nonces reported by [sendStatus], in the order of the reports. *)
Definition status_nonces (tr : list Event) : list Z :=
  flat_map (fun e => match e with EvStatus n _ => [n] | _ => [] end) tr.

(** The contract of a [mine] primitive for a set [wins] of winning nonces:
    on a slice [[a, b)] it answers -1 when no nonce of the slice wins, and
    the lowest winning nonce of the slice otherwise. *)
Definition mine_least (wins : Z -> bool) (mine : Z -> Z -> Z) : Prop :=
  forall a b,
    (mine a b = -1 /\ forall x, a <= x < b -> wins x = false) \/
    (a <= mine a b < b /\ wins (mine a b) = true /\
     forall x, a <= x < mine a b -> wins x = false).

(** The value of the extra-nonce pair [(n1, n2)]. *)
Definition extraNonce (j : @STDJob Block Proof) : Z :=
  nonce1 j * 2 ^ 32 + nonce2 j.

(** [k] calls of [updateNonce] in a row. *)
Fixpoint updateNonces (k : nat) (j : @STDJob Block Proof) : STDJob :=
  match k with
  | O => j
  | S k => updateNonce (updateNonces k j)
  end.

(** [notifyEntry()]: the clock is read when the staker runs and has a job;
    a job started more than 10 seconds ago is destroyed and dropped. *)
Definition notifyEntry (self : @STDStaker Block Proof) (w : World)
  : result unit * STDStaker * World :=
  if negb (running self) then (Ok tt, self, w)
  else
    match job self with
    | None => (Ok tt, self, w)
    | Some j =>
        let (now, w) := util_now w in
        if 10 <? now - start j then
          match destroy j with
          | (Throw e, j) => (Throw e, set_job (Some j) self, w)
          | (Ok _, _) => (Ok tt, set_job None self, w)
          end
        else (Ok tt, self, w)
    end.

(** Where [_stop] is when it stops running on its own: it returned because
    the staker was not running, or it waits for the loop. *)
Inductive StopPhase : Type :=
| NotRunning
| Waiting.

(** [_stop()] up to [await this.wait()]. *)
Definition _stop_until_wait (self : @STDStaker Block Proof)
  : result StopPhase * STDStaker :=
  if negb (running self) then (Ok NotRunning, self)
  else
    match JS.assert (running self) "Miner is not running." with
    | Throw e => (Throw e, self)
    | Ok _ =>
        match JS.assert (negb (stopping self)) "Miner is already stopping." with
        | Throw e => (Throw e, self)
        | Ok _ =>
            let self := set_stopping true self in
            match job self with
            | Some j =>
                match destroy j with
                | (Throw e, j) => (Throw e, set_job (Some j) self)
                | (Ok _, _) => (Ok Waiting, set_job None self)
                end
            | None => (Ok Waiting, self)
            end
        end
    end.

(** [_stop()] after the wait. *)
Definition _stop_after_wait (self : @STDStaker Block Proof) : STDStaker :=
  set_job None (set_stopping false (set_running false self)).

(** A call of one of the four methods that change a job, and what the
    caller gets. *)
Inductive Call : Type :=
| CallCommit (nonce : Z)
| CallCommitCnTxTime (nTime : Z) (stakeCoin : Coin.t)
| CallUpdateNonce
| CallDestroy.

Inductive Reply : Type :=
| GotBlock (b : Block)
| GotNothing
| Raised (e : Error).

Definition call (c : Call) (j : @STDJob Block Proof) : Reply * STDJob :=
  match c with
  | CallCommit nonce =>
      match job_commit nonce j with
      | (Ok b, j) => (GotBlock b, j)
      | (Throw e, j) => (Raised e, j)
      end
  | CallCommitCnTxTime nTime stakeCoin =>
      match job_commitCnTxTime nTime stakeCoin j with
      | (Ok b, j) => (GotBlock b, j)
      | (Throw e, j) => (Raised e, j)
      end
  | CallUpdateNonce => (GotNothing, updateNonce j)
  | CallDestroy =>
      match destroy j with
      | (Ok _, j) => (GotNothing, j)
      | (Throw e, j) => (Raised e, j)
      end
  end.

(** The calls of a list in turn, on the same job. *)
Fixpoint calls (cs : list Call) (j : @STDJob Block Proof)
  : list Reply * STDJob :=
  match cs with
  | [] => ([], j)
  | c :: rest =>
      let (r, j) := call c j in
      let (rs, j) := calls rest j in
      (r :: rs, j)
  end.

Definition blocks_of (rs : list Reply) : list Block :=
  flat_map (fun r => match r with GotBlock b => [b] | _ => [] end) rs.

(** The state of an asynchronous search: the job, shared with the
    listeners, the number of [await]s passed, and the world. *)
Record Async : Type := mkAsync {
  ajob : @STDJob Block Proof;
  awaits : nat;
  aworld : World
}.

Section Interference.
(** While the search is suspended the listeners of this file run; all they
    do to the job is [destroy] it.  [strikes n] tells whether that happens
    during the [await] number [n]. *)
Variable strikes : nat -> bool.

Definition await (st : Async) : Async :=
  mkAsync (if strikes (awaits st) then set_destroyed true (ajob st)
           else ajob st)
          (S (awaits st)) (aworld st).

Definition log (e : Event) (st : Async) : Async :=
  mkAsync (ajob st) (awaits st) (emit e (aworld st)).

(** [nonce = await this.workers.mine(data, target, min, max)]. *)
Definition after_mine (min_ max_ : Z) (st : Async) : Async :=
  await (log (EvMine min_ max_) st).

Definition status (nonce : Z) (st : Async) : Async :=
  log (EvStatus nonce (getHashes (ajob st) nonce)) st.

Section AsyncLoop.
Variables limit interval : Z.
Hypothesis interval_pos : 0 < interval.

(** The loop of [findNonceAsync] with a worker pool. *)
Equations? findNonceAsync_loop (mine : Z -> Z -> Z) (min_ max_ : Z)
    (nonce : option Z) (st : Async) : option Z * Async
    by wf (limit - max_) (Zwf 0) :=
  findNonceAsync_loop mine min_ max_ nonce st with Z_le_gt_dec max_ limit := {
    | right _ := (nonce, st);
    | left _ with mine min_ max_ := {
      | n with Z.eqb n (-1) := {
        | false := (Some n, after_mine min_ max_ st);
        | true with destroyed (ajob (after_mine min_ max_ st)) := {
          | true := (Some n, after_mine min_ max_ st);
          | false :=
              findNonceAsync_loop mine (min_ + interval) (max_ + interval)
                (Some n) (status max_ (after_mine min_ max_ st)) } } } }.
Proof.
  unfold Zwf. lia.
Qed.

End AsyncLoop.

(** [findNonceAsync(job)] (the second, live binding; the first is the same
    text): without a worker pool it is [findNonce] with the in-process
    [mine]. *)
Definition findNonceAsync
    (workers : option (list byte -> list byte -> Z -> Z -> Z))
    (mine : list byte -> list byte -> Z -> Z -> Z) (st : Async)
  : option Z * Async :=
  let data := job_getHeader (ajob st) in
  let target := target (attempt (ajob st)) in
  let interval := INTERVAL in
  match workers with
  | None =>
      let (nonce, tr) := findNonce mine (ajob st) in
      (nonce,
       mkAsync (ajob st) (awaits st)
               (mkWorld (clock (aworld st)) (reads (aworld st))
                        (trace (aworld st) ++ tr)))
  | Some workers_mine =>
      findNonceAsync_loop 0xffffffff interval INTERVAL_pos
        (workers_mine data target) 0 interval None st
  end.

(** How [mineAsync] ends within [fuel] rounds of its loop: it returned or
    threw, it is still searching, or it would hand an undefined nonce to
    [commit]. *)
Inductive MineOutcome : Type :=
| Returned (r : result (option Block)) (st : Async)
| StillMining
| UndefinedNonce (st : Async).

(** The loop of [mineAsync]; [await this.findNonceAsync(job)] is one more
    suspension. *)
Fixpoint mineAsync_loop (fuel : nat)
    (workers : option (list byte -> list byte -> Z -> Z -> Z))
    (mine : list byte -> list byte -> Z -> Z -> Z) (st : Async)
  : MineOutcome :=
  match fuel with
  | O => StillMining
  | S fuel =>
      let (nonce, st) := findNonceAsync workers mine st in
      let st := await st in
      match nonce with
      | None => UndefinedNonce st
      | Some nonce =>
          if negb (nonce =? -1) then
            let (r, j) := job_commit nonce (ajob st) in
            Returned (x <- r ;; Ok (Some x))
                     (mkAsync j (awaits st) (aworld st))
          else if destroyed (ajob st) then Returned (Ok None) st
          else
            let st := mkAsync (updateNonce (ajob st)) (awaits st) (aworld st) in
            mineAsync_loop fuel workers mine (status 0 st)
      end
  end.

Definition mineAsync (fuel : nat)
    (workers : option (list byte -> list byte -> Z -> Z -> Z))
    (mine : list byte -> list byte -> Z -> Z -> Z) (st : Async)
  : MineOutcome :=
  let (now, w) := util_now (aworld st) in
  mineAsync_loop fuel workers mine
    (mkAsync (set_start now (ajob st)) (awaits st) w).

End Interference.
End Model.

End Supervisor.

(** ** More sample values *)

Module Sample2.

(** A [scrypt] stand-in that is told apart from the double hash. *)
Definition scrypt_derive (data : list byte) : list byte :=
  Digest.sha256 (x01 :: data).

(** A second header, on another parent, with version 1. *)
Definition header1 : AbstractBlock.t :=
  AbstractBlock.mk 1 Sample.hash_aa Sample.hash_11 Sample.stake_time
                   Sample.hard_bits 7 false None None.

(** A primitive that finds the nonce 5000000 and no other. *)
Definition mine_5000000 (data target : list byte) (min_ max_ : Z) : Z :=
  if (min_ <=? 5000000) && (5000000 <? max_) then 5000000 else -1.

(** A primitive that finds nothing. *)
Definition mine_nothing (data target : list byte) (min_ max_ : Z) : Z := -1.

Definition async (destroyed : bool)
  : @Supervisor.Async AbstractBlock.t (Z * Z * Z * Z) :=
  Supervisor.mkAsync (Sample.job destroyed false 0 0) 0 Sample.world.

End Sample2.

(** * Theorems *)

(** ** The digest and the compact encoding on known values *)

Section ReferenceValues.

(** The first and the last round constant and the initial hash value of
    FIPS 180-4. *)
Lemma sha256_constants :
  nth 0 Digest.K 0 = 0x428a2f98 /\ nth 63 Digest.K 0 = 0xc67178f2 /\
  List.length Digest.K = 64%nat /\
  Digest.H0 = [0x6a09e667; 0xbb67ae85; 0x3c6ef372; 0xa54ff53a;
               0x510e527f; 0x9b05688c; 0x1f83d9ab; 0x5be0cd19].
Proof. repeat split; reflexivity. Qed.

(** The test vectors of the standard: the empty message and "abc". *)
Lemma sha256_vectors :
  Hex.encode (Digest.sha256 [])
  = "e3b0c44298fc1c149afbf4c8996fb92427ae41e4649b934ca495991b7852b855"%string /\
  Hex.encode (Digest.sha256 (Sample.ascii_bytes "abc"))
  = "ba7816bf8f01cfea414140de5dae2223b00361a396177a9cb410ff61f20015ad"%string.
Proof. split; vm_compute; reflexivity. Qed.

(** The double hash of "hello", a vector of Bitcoin's documentation. *)
Lemma hash256_hello :
  Hex.encode (Digest.hash256 (Sample.ascii_bytes "hello"))
  = "9595c9df90075148eb06860365df33584b75bff782a510c6cd4883a419833d50"%string.
Proof. vm_compute. reflexivity. Qed.

(** Bitcoin's initial target and the easiest one. *)
Lemma fromCompact_values :
  Compact.fromCompact Sample.hard_bits = 0xffff * 2 ^ 208 /\
  Compact.fromCompact Sample.easy_bits = 0x7fffff * 2 ^ 232 /\
  Compact.toCompact (0xffff * 2 ^ 208) = Sample.hard_bits.
Proof. repeat split; vm_compute; reflexivity. Qed.

End ReferenceValues.

(** ** Bytes and hex strings *)

Section BytesFacts.
Import Bytes.

Lemma Z_of_byte_range (b : byte) : 0 <= Z_of_byte b < 256.
Proof.
  unfold Z_of_byte. pose proof (Byte.to_N_bounded b). lia.
Qed.

Lemma Z_of_byte_of_Z (z : Z) : Z_of_byte (byte_of_Z z) = z mod 256.
Proof.
  unfold Z_of_byte, byte_of_Z.
  pose proof (Z.mod_pos_bound z 256 ltac:(lia)) as Hz.
  destruct (Byte.of_N (Z.to_N (z mod 256))) as [b|] eqn:E.
  - apply Byte.to_of_N in E. rewrite E. lia.
  - apply Byte.of_N_None_iff in E. lia.
Qed.

Lemma byte_of_Z_of_byte (b : byte) : byte_of_Z (Z_of_byte b) = b.
Proof.
  unfold byte_of_Z, Z_of_byte.
  pose proof (Z_of_byte_range b) as Hb. unfold Z_of_byte in Hb.
  rewrite Z.mod_small by exact Hb.
  rewrite N2Z.id, Byte.of_to_N. reflexivity.
Qed.

Lemma le_encode_length (n : nat) (z : Z) : List.length (le_encode n z) = n.
Proof.
  revert z; induction n as [|n IH]; intros z; simpl; [reflexivity|].
  now rewrite IH.
Qed.

Lemma le_decode_nonneg (bs : list byte) : 0 <= le_decode bs.
Proof.
  induction bs as [|b bs IH]; cbn [le_decode]; [lia|].
  pose proof (Z_of_byte_range b). lia.
Qed.

Lemma le_decode_bound (bs : list byte) :
  0 <= le_decode bs < 256 ^ Z.of_nat (List.length bs).
Proof.
  induction bs as [|b bs IH]; cbn [le_decode List.length]; [cbn; lia|].
  pose proof (Z_of_byte_range b).
  rewrite Nat2Z.inj_succ, Z.pow_succ_r by lia. lia.
Qed.

Lemma le_decode_encode (n : nat) (z : Z) :
  le_decode (le_encode n z) = z mod 256 ^ Z.of_nat n.
Proof.
  revert z; induction n as [|n IH]; intros z.
  - simpl. now rewrite Z.mod_1_r.
  - cbn [le_encode le_decode]. rewrite Z_of_byte_of_Z, IH.
    rewrite Nat2Z.inj_succ, Z.pow_succ_r by lia.
    rewrite (Z.rem_mul_r z 256 (256 ^ Z.of_nat n)) by lia.
    lia.
Qed.

Lemma le_decode_encode_u32 (z : Z) :
  0 <= z < 2 ^ 32 -> le_decode (le_encode 4 z) = z.
Proof.
  intros Hz. rewrite le_decode_encode.
  apply Z.mod_small. change (256 ^ Z.of_nat 4) with (2 ^ 32). exact Hz.
Qed.

End BytesFacts.

Section HexFacts.
Import Bytes.

(** A lower-case hex digit has a value below 16 and is the digit of that
    value. *)
Lemma lower_digit (c : ascii) :
  Hex.is_lower c = true ->
  exists h, Hex.value c = Some h /\ 0 <= h < 16 /\ Hex.digit h = c.
Proof.
  destruct c as [[] [] [] [] [] [] [] []]; intros H;
    try discriminate H;
    (eexists; split;
       [reflexivity
       | split; [cbv; split; [discriminate | reflexivity] | reflexivity]]).
Qed.

Lemma digit_value (h : Z) :
  0 <= h < 16 -> Hex.value (Hex.digit h) = Some h.
Proof.
  intros Hh.
  assert (Hc : h = 0 \/ h = 1 \/ h = 2 \/ h = 3 \/ h = 4 \/ h = 5 \/ h = 6
               \/ h = 7 \/ h = 8 \/ h = 9 \/ h = 10 \/ h = 11 \/ h = 12
               \/ h = 13 \/ h = 14 \/ h = 15) by lia.
  repeat (destruct Hc as [-> | Hc]; [reflexivity|]). subst h. reflexivity.
Qed.

Lemma digit_lower (h : Z) : 0 <= h < 16 -> Hex.is_lower (Hex.digit h) = true.
Proof.
  intros Hh.
  assert (Hc : h = 0 \/ h = 1 \/ h = 2 \/ h = 3 \/ h = 4 \/ h = 5 \/ h = 6
               \/ h = 7 \/ h = 8 \/ h = 9 \/ h = 10 \/ h = 11 \/ h = 12
               \/ h = 13 \/ h = 14 \/ h = 15) by lia.
  repeat (destruct Hc as [-> | Hc]; [reflexivity|]). subst h. reflexivity.
Qed.

Lemma nibbles (n : Z) :
  0 <= n < 256 -> 0 <= n / 16 < 16 /\ 0 <= n mod 16 < 16 /\
                  16 * (n / 16) + n mod 16 = n.
Proof.
  intros Hn. pose proof (Z.div_mod n 16 ltac:(lia)).
  pose proof (Z.mod_pos_bound n 16 ltac:(lia)).
  assert (0 <= n / 16) by (apply Z.div_pos; lia).
  assert (n / 16 < 16) by (apply Z.div_lt_upper_bound; lia).
  lia.
Qed.

(** Decoding undoes encoding. *)
Lemma decode_encode (bs : list byte) : Hex.decode (Hex.encode bs) = Some bs.
Proof.
  induction bs as [|b bs IH]; [reflexivity|].
  cbn [Hex.encode Hex.decode].
  destruct (nibbles _ (Z_of_byte_range b)) as (Hh & Hl & Hsum).
  rewrite (digit_value _ Hh), (digit_value _ Hl), IH, Hsum.
  now rewrite byte_of_Z_of_byte.
Qed.

Lemma encode_length (bs : list byte) :
  String.length (Hex.encode bs) = (2 * List.length bs)%nat.
Proof.
  induction bs as [|b bs IH]; [reflexivity|].
  cbn [Hex.encode String.length List.length]. rewrite IH. lia.
Qed.

Lemma encode_lower (bs : list byte) : Hex.all_lower (Hex.encode bs) = true.
Proof.
  induction bs as [|b bs IH]; [reflexivity|].
  cbn [Hex.encode Hex.all_lower].
  destruct (nibbles _ (Z_of_byte_range b)) as (Hh & Hl & _).
  now rewrite (digit_lower _ Hh), (digit_lower _ Hl), IH.
Qed.

(** A string of [2 n] lower-case hex digits decodes to [n] bytes, and is
    what encoding them gives back. *)
Lemma decode_lower (n : nat) (s : string) :
  String.length s = (2 * n)%nat -> Hex.all_lower s = true ->
  exists bs, Hex.decode s = Some bs /\ List.length bs = n /\ Hex.encode bs = s.
Proof.
  revert s; induction n as [|n IH]; intros s Hlen Hall.
  - destruct s; [|discriminate Hlen]. exists []. now repeat split.
  - destruct s as [|c1 [|c2 rest]]; try discriminate Hlen.
    { simpl in Hlen. lia. }
    cbn [Hex.all_lower] in Hall.
    apply andb_true_iff in Hall as [H1 Hall].
    apply andb_true_iff in Hall as [H2 Hall].
    destruct (lower_digit _ H1) as (h & Hv1 & Hh & Hd1).
    destruct (lower_digit _ H2) as (l & Hv2 & Hl & Hd2).
    destruct (IH rest) as (bs & Hdec & Hbs & Henc); [simpl in Hlen; lia | exact Hall |].
    exists (byte_of_Z (16 * h + l) :: bs).
    cbn [Hex.decode]. rewrite Hv1, Hv2, Hdec.
    repeat split; [simpl; now rewrite Hbs|].
    cbn [Hex.encode]. rewrite Z_of_byte_of_Z, Henc.
    rewrite (Z.mod_small (16 * h + l) 256) by lia.
    replace ((16 * h + l) / 16) with h
      by (apply (Z.div_unique _ _ h l); lia).
    replace ((16 * h + l) mod 16) with l
      by (apply (Z.mod_unique _ _ h l); lia).
    now rewrite Hd1, Hd2.
Qed.

(** The bytes of a well-formed hash. *)
Lemma is_hash_bytes (h : Hash) :
  is_hash h = true ->
  exists bs, hash_bytes h = Some bs /\ List.length bs = 32%nat /\
             Hex.encode bs = h.
Proof.
  unfold is_hash, hash_bytes. intros H.
  apply andb_true_iff in H as [Hlen Hall]. rewrite Hlen.
  apply Nat.eqb_eq in Hlen.
  exact (decode_lower 32 h Hlen Hall).
Qed.

End HexFacts.

(** ** Writer and reader *)

Section WireFacts.
Import Bytes Wire.

Lemma writeHash_bytes (h : Hash) (bs : list byte) (bw : StaticWriter) :
  hash_bytes h = Some bs ->
  writeHash h bw = Ok (mkWriter (capacity bw) (written bw ++ bs)).
Proof.
  unfold hash_bytes, writeHash. intros H.
  destruct (Nat.eqb (String.length h) 64); [|discriminate H].
  cbn. now rewrite H.
Qed.

Lemma readBytes_app (n : nat) (bs rest : list byte) :
  List.length bs = n ->
  readBytes n (mkReader (bs ++ rest)) = Ok (bs, mkReader rest).
Proof.
  intros Hn. unfold readBytes. cbn [left].
  assert (Hle : Nat.leb n (List.length (bs ++ rest)) = true).
  { apply Nat.leb_le. rewrite length_app. lia. }
  rewrite Hle.
  rewrite <- Hn, firstn_app, skipn_app, firstn_all, skipn_all.
  rewrite Nat.sub_diag. cbn. now rewrite app_nil_r.
Qed.

Lemma readU32_app (z : Z) (rest : list byte) :
  0 <= z < 2 ^ 32 ->
  readU32 (mkReader (le_encode 4 z ++ rest)) = Ok (z, mkReader rest).
Proof.
  intros Hz. unfold readU32.
  rewrite (readBytes_app 4) by apply le_encode_length.
  cbn [JS.bind fst snd]. now rewrite le_decode_encode_u32.
Qed.

Lemma readHash_app (bs rest : list byte) :
  List.length bs = 32%nat ->
  readHash_hex (mkReader (bs ++ rest)) = Ok (Hex.encode bs, mkReader rest).
Proof.
  intros Hn. unfold readHash_hex. now rewrite (readBytes_app 32).
Qed.

End WireFacts.

(** ** The block header *)

Section HeaderFacts.
Import Bytes Wire AbstractBlock.

Lemma toHead_bytes (h : AbstractBlock.t) (pb mr : list byte) :
  hash_bytes (prevBlock h) = Some pb -> List.length pb = 32%nat ->
  hash_bytes (merkleRoot h) = Some mr -> List.length mr = 32%nat ->
  toHead h = Ok (header_bytes h pb mr).
Proof.
  intros Hpb Lpb Hmr Lmr. unfold toHead, writeHead.
  rewrite (writeHash_bytes _ pb) by exact Hpb. cbn [JS.bind].
  rewrite (writeHash_bytes _ mr) by exact Hmr. cbn [JS.bind].
  unfold render, writeU32, new_writer. cbn [written capacity].
  repeat rewrite length_app. repeat rewrite le_encode_length.
  rewrite Lpb, Lmr. cbn.
  unfold header_bytes. now repeat rewrite <- app_assoc.
Qed.

(** C8. Header round trip: for a header [h] whose four integers are 32-bit
    unsigned and whose two hashes are well formed, [toHead] gives the 80
    bytes [u32 version || prevBlock || merkleRoot || u32 ts || u32 bits ||
    u32 nonce], integers little-endian, and [fromHead] on these bytes
    assigns to any block [self] the six header fields of [h], leaving the
    other fields of [self] as they were. *)
Theorem header_round_trip (h self : AbstractBlock.t) :
  well_formed h ->
  exists (pb mr : list byte) (b : AbstractBlock.t),
    hash_bytes (prevBlock h) = Some pb /\
    hash_bytes (merkleRoot h) = Some mr /\
    toHead h = Ok (header_bytes h pb mr) /\
    List.length (header_bytes h pb mr) = 80%nat /\
    fromHead self (header_bytes h pb mr) = (Ok b, b) /\
    same_header b h /\
    mutable b = mutable self /\ _hash b = _hash self /\ _hhash b = _hhash self.
Proof.
  intros (Hv & Ht & Hb & Hn & Hp & Hm).
  destruct (is_hash_bytes _ Hp) as (pb & Hpb & Lpb & Epb).
  destruct (is_hash_bytes _ Hm) as (mr & Hmr & Lmr & Emr).
  exists pb, mr. eexists.
  split; [exact Hpb|]. split; [exact Hmr|].
  split; [now apply toHead_bytes|].
  split.
  { unfold header_bytes. repeat rewrite length_app.
    repeat rewrite le_encode_length. rewrite Lpb, Lmr. reflexivity. }
  unfold fromHead, readHead, new_reader, header_bytes.
  rewrite readU32_app by exact Hv.
  rewrite readHash_app by exact Lpb.
  rewrite readHash_app by exact Lmr.
  rewrite readU32_app by exact Ht.
  rewrite readU32_app by exact Hb.
  rewrite <- (app_nil_r (le_encode 4 (nonce h))).
  rewrite readU32_app by exact Hn.
  split; [reflexivity|].
  unfold same_header. cbn. rewrite Epb, Emr. repeat split; reflexivity.
Qed.

(** The round trip at the sample header, parsed into a fresh block. *)
Lemma header_round_trip_sample :
  exists (pb mr : list byte) (b : AbstractBlock.t),
    hash_bytes (prevBlock Sample.header) = Some pb /\
    hash_bytes (merkleRoot Sample.header) = Some mr /\
    toHead Sample.header = Ok (header_bytes Sample.header pb mr) /\
    List.length (header_bytes Sample.header pb mr) = 80%nat /\
    fromHead create (header_bytes Sample.header pb mr) = (Ok b, b) /\
    same_header b Sample.header /\
    mutable b = mutable create /\ _hash b = _hash create /\
    _hhash b = _hhash create.
Proof.
  apply (header_round_trip Sample.header create).
  unfold well_formed, u32.
  repeat split; vm_compute; first [reflexivity | discriminate].
Defined.

End HeaderFacts.

(** ** The digest *)

Section DigestFacts.

Lemma round_length (st : list Z) (kw : Z * Z) :
  List.length st = 8%nat -> List.length (Digest.round st kw) = 8%nat.
Proof.
  intros H.
  destruct st as [|a [|b [|c [|d [|e [|f [|g [|h [|x rest]]]]]]]]];
    try discriminate H; reflexivity.
Qed.

Lemma rounds_length (kws : list (Z * Z)) (st : list Z) :
  List.length st = 8%nat ->
  List.length (fold_left Digest.round kws st) = 8%nat.
Proof.
  revert st; induction kws as [|kw kws IH]; intros st H; [exact H|].
  cbn [fold_left]. apply IH. now apply round_length.
Qed.

Lemma compress_length (h : list Z) (block : list byte) :
  List.length h = 8%nat -> List.length (Digest.compress h block) = 8%nat.
Proof.
  intros H. unfold Digest.compress.
  rewrite length_map, length_combine, rounds_length by exact H.
  rewrite H. reflexivity.
Qed.

Lemma compress_all_length (bs : list (list byte)) (h : list Z) :
  List.length h = 8%nat ->
  List.length (fold_left Digest.compress bs h) = 8%nat.
Proof.
  revert h; induction bs as [|b bs IH]; intros h H; [exact H|].
  cbn [fold_left]. apply IH. now apply compress_length.
Qed.

Lemma words_bytes_length (ws : list Z) :
  List.length (List.concat (map (Bytes.be_encode 4) ws))
  = (4 * List.length ws)%nat.
Proof.
  induction ws as [|w ws IH]; [reflexivity|].
  cbn [map List.concat]. rewrite length_app, IH.
  unfold Bytes.be_encode. rewrite length_rev, le_encode_length.
  cbn [List.length]. lia.
Qed.

(** SHA-256 and the double hash give 32 bytes. *)
Lemma sha256_length (msg : list byte) :
  List.length (Digest.sha256 msg) = 32%nat.
Proof.
  unfold Digest.sha256. rewrite words_bytes_length.
  rewrite compress_all_length; reflexivity.
Qed.

Lemma hash256_length (msg : list byte) :
  List.length (Digest.hash256 msg) = 32%nat.
Proof. apply sha256_length. Qed.

(** A hex string that decodes has two digits per byte. *)
Lemma decode_length (n : nat) (s : string) (bs : list byte) :
  String.length s = (2 * n)%nat -> Hex.decode s = Some bs ->
  List.length bs = n.
Proof.
  revert s bs; induction n as [|n IH]; intros s bs Hlen Hdec.
  - destruct s; [|discriminate Hlen]. cbn in Hdec. now injection Hdec as <-.
  - destruct s as [|c1 [|c2 rest]]; try discriminate Hlen.
    { simpl in Hlen. lia. }
    cbn [Hex.decode] in Hdec.
    destruct (Hex.value c1); [|discriminate Hdec].
    destruct (Hex.value c2); [|discriminate Hdec].
    destruct (Hex.decode rest) as [bs'|] eqn:E; [|discriminate Hdec].
    injection Hdec as <-. cbn [List.length]. f_equal.
    apply (IH rest); [simpl in Hlen; lia | exact E].
Qed.

Lemma hash_bytes_length (h : Hash) (bs : list byte) :
  hash_bytes h = Some bs -> List.length bs = 32%nat.
Proof.
  unfold hash_bytes. destruct (Nat.eqb (String.length h) 64) eqn:E;
    [|discriminate].
  apply Nat.eqb_eq in E. now apply decode_length.
Qed.

Lemma hash_bytes_encode (bs : list byte) :
  List.length bs = 32%nat ->
  is_hash (Hex.encode bs) = true /\ hash_bytes (Hex.encode bs) = Some bs.
Proof.
  intros H. unfold is_hash, hash_bytes.
  rewrite encode_length, H, encode_lower, decode_encode. now split.
Qed.

End DigestFacts.

(** ** The kernel predicate *)

Section KernelFacts.
Import Bytes Wire Pos.
Context {P : Primitives}.

Lemma cmp_le (a b : Z) : (BN.cmp a b <=? 0) = true <-> a <= b.
Proof.
  unfold BN.cmp. destruct (Z.compare_spec a b); cbn; split; intros; try lia;
    try reflexivity; discriminate.
Qed.

Lemma of_string_le_nonneg (number : string) : 0 <= BN.of_string_le number.
Proof.
  unfold BN.of_string_le. apply le_decode_nonneg.
Qed.

Lemma proofOfStake_bytes (prev : ChainEntry.t) (coin : Coins.t)
    (previousout : Coin.t) (timeTx : Z) (sm ph : list byte) :
  hash_bytes (ChainEntry.stakeModifier prev) = Some sm ->
  hash_bytes (Coin.hash previousout) = Some ph ->
  exists w, proofOfStake prev coin previousout timeTx = Ok w /\
            data w = kernel_bytes sm (Coins.nTime coin) ph
                                  (Coin.index previousout) timeTx.
Proof.
  intros Hsm Hph. unfold proofOfStake.
  rewrite (writeHash_bytes _ sm) by exact Hsm. cbn [JS.bind].
  rewrite (writeHash_bytes _ ph) by exact Hph. cbn [JS.bind].
  eexists. split; [reflexivity|].
  unfold data, writeU32, new_writer, kernel_bytes. cbn [written capacity].
  cbn [app]. now repeat rewrite <- app_assoc.
Qed.

(** The digits of a hex string are digits to [parseBase] as well, with
    their hex value. *)
Lemma digit_of_hex (h : Z) : 0 <= h < 16 -> BN.digit (Hex.digit h) = h.
Proof.
  intros Hh.
  assert (Hc : h = 0 \/ h = 1 \/ h = 2 \/ h = 3 \/ h = 4 \/ h = 5 \/ h = 6
               \/ h = 7 \/ h = 8 \/ h = 9 \/ h = 10 \/ h = 11 \/ h = 12
               \/ h = 13 \/ h = 14 \/ h = 15) by lia.
  repeat (destruct Hc as [-> | Hc]; [reflexivity|]). subst h. reflexivity.
Qed.

(** A hex string of [n] bytes parsed in base 10 stays below [2 * 10^(2n)]:
    each digit is at most 15. *)
Lemma parseBase_encode (bs : list byte) (r : Z) :
  0 <= r ->
  0 <= BN.parseBase r (Hex.encode bs) 10
    <= (r + 2) * 10 ^ Z.of_nat (2 * List.length bs) - 2.
Proof.
  revert r; induction bs as [|b bs IH]; intros r Hr.
  - cbn. lia.
  - cbn [Hex.encode BN.parseBase].
    destruct (nibbles _ (Z_of_byte_range b)) as (Hh & Hl & _).
    rewrite (digit_of_hex _ Hh), (digit_of_hex _ Hl).
    set (hi := Z_of_byte b / 16) in *. set (lo := Z_of_byte b mod 16) in *.
    destruct (IH ((r * 10 + hi) * 10 + lo) ltac:(lia)) as [H0 H1].
    split; [exact H0|].
    replace (Z.of_nat (2 * List.length (b :: bs)))
      with (Z.of_nat (2 * List.length bs) + 2) by (cbn [List.length]; lia).
    rewrite Z.pow_add_r by lia. change (10 ^ 2) with 100.
    pose proof (Z.pow_pos_nonneg 10 (Z.of_nat (2 * List.length bs))
                  ltac:(lia) ltac:(lia)).
    nia.
Qed.

Lemma toArray_bound (n : Z) :
  0 <= n < 2 ^ 216 -> le_decode (BN.toArray n) < 2 ^ 216.
Proof.
  intros Hn. unfold BN.toArray, be_encode.
  set (k := Z.to_nat (Z.max 1 (BN.byteLength n))).
  pose proof (le_decode_bound (rev (le_encode k n))) as Hb.
  rewrite length_rev, le_encode_length in Hb.
  assert (Hk : Z.of_nat k <= 27).
  { unfold k, BN.byteLength. destruct (Z.eqb_spec n 0) as [_|Hne]; [lia|].
    assert (Z.log2 n < 216) by (apply Z.log2_lt_pow2; lia).
    pose proof (Z.log2_nonneg n).
    assert ((Z.log2 n + 8) / 8 < 28) by (apply Z.div_lt_upper_bound; lia).
    assert (0 <= (Z.log2 n + 8) / 8) by (apply Z.div_pos; lia).
    lia. }
  assert (256 ^ Z.of_nat k <= 256 ^ 27) by (apply Z.pow_le_mono_r; lia).
  change (256 ^ 27) with (2 ^ 216) in *. lia.
Qed.

(** Whatever the 32 bytes of the digest, the number the kernel makes of
    its hex string is below 2^216. *)
Lemma of_string_le_encode (bs : list byte) :
  List.length bs = 32%nat -> 0 <= BN.of_string_le (Hex.encode bs) < 2 ^ 216.
Proof.
  intros Hlen. split; [apply of_string_le_nonneg|].
  unfold BN.of_string_le. apply toArray_bound.
  destruct (parseBase_encode bs 0 ltac:(lia)) as [H0 H1].
  rewrite Hlen in H1. split; [exact H0|].
  eapply Z.le_lt_trans; [exact H1|]. reflexivity.
Qed.

(** Past its three gates the kernel is the comparison of a quotient with
    the target; the dividend is what [new BN(str, 'le')] makes of the hex
    string of the digest. *)
Lemma kernel_value (prev : ChainEntry.t) (blkbits : Z) (coin : Coins.t)
    (previousout : Coin.t) (timeTx : Z) (out : Output.t) (sm ph : list byte) :
  STAKE_MIN_CONFIRMATIONS <= ChainEntry.height prev + 1 - Coins.height coin ->
  Coins.getOutput coin (Coin.index previousout) = Some out ->
  Output.value out <> 0 ->
  hash_bytes (ChainEntry.stakeModifier prev) = Some sm ->
  hash_bytes (Coin.hash previousout) = Some ph ->
  checkStakeKernelHash prev blkbits (Some coin) previousout timeTx
  = Fulfilled
      (Z.quot (BN.of_string_le
                 (Hex.encode
                    (hash256 (kernel_bytes sm (Coins.nTime coin) ph
                                (Coin.index previousout) timeTx))))
              (Output.value out)
       <=? fromCompact blkbits).
Proof.
  intros Hgate Hout Hval Hsm Hph.
  unfold checkStakeKernelHash, checkStakeKernelHash_body.
  destruct (Z.ltb_spec (ChainEntry.height prev + 1 - Coins.height coin)
                       STAKE_MIN_CONFIRMATIONS) as [Hlt|_]; [lia|].
  rewrite Hout. cbn [JS.bind].
  destruct (Z.eqb_spec (Output.value out) 0) as [H0|_]; [contradiction|].
  destruct (proofOfStake_bytes prev coin previousout timeTx sm ph Hsm Hph)
    as (w & Hw & Hdata).
  rewrite Hw. cbn [JS.bind JS.async].
  rewrite Hdata. unfold BN.div, BN.of_number.
  f_equal.
  match goal with |- (BN.cmp ?a ?b <=? 0) = (?a <=? ?b) =>
    pose proof (cmp_le a b) as Hc;
    destruct (BN.cmp a b <=? 0); destruct (Z.leb_spec a b); intuition lia
  end.
Qed.

(** C1, on the code.  The kernel does not read the digest as a
    little-endian integer.  It hands the hex string of the digest to [new
    BN(str, 'le')], where bn.js takes ['le'] for the endianness and parses
    the string in base 10 before it reverses the bytes.  For a coin that
    exists, passes the confirmation gate and has a positive value, the
    kernel compares the quotient of that number, which is below 2^216
    whatever the 32 bytes of the digest are; so for every target of 2^216
    or more it returns true. *)
Theorem kernel_parses_digest_in_base_10 (prev : ChainEntry.t) (blkbits : Z)
    (coin : Coins.t) (previousout : Coin.t) (timeTx : Z) (out : Output.t)
    (sm ph : list byte) :
  STAKE_MIN_CONFIRMATIONS <= ChainEntry.height prev + 1 - Coins.height coin ->
  Coins.getOutput coin (Coin.index previousout) = Some out ->
  0 < Output.value out ->
  hash_bytes (ChainEntry.stakeModifier prev) = Some sm ->
  hash_bytes (Coin.hash previousout) = Some ph ->
  (forall data, List.length (hash256 data) = 32%nat) ->
  let digest := hash256 (kernel_bytes sm (Coins.nTime coin) ph
                           (Coin.index previousout) timeTx) in
  let parsed := BN.parseBase 0 (Hex.encode digest) 10 in
  checkStakeKernelHash prev blkbits (Some coin) previousout timeTx
  = Fulfilled (Z.quot (le_decode (BN.toArray parsed)) (Output.value out)
               <=? fromCompact blkbits) /\
  0 <= le_decode (BN.toArray parsed) < 2 ^ 216 /\
  (2 ^ 216 <= fromCompact blkbits ->
   checkStakeKernelHash prev blkbits (Some coin) previousout timeTx
   = Fulfilled true).
Proof.
  intros Hgate Hout Hpos Hsm Hph Hlen digest parsed.
  pose proof (kernel_value prev blkbits coin previousout timeTx out sm ph
                Hgate Hout ltac:(lia) Hsm Hph) as Hv.
  pose proof (of_string_le_encode digest (Hlen _)) as Hb.
  unfold BN.of_string_le in Hv, Hb. fold digest in Hv. fold parsed in Hv, Hb.
  split; [exact Hv|]. split; [exact Hb|].
  intros Hwide. rewrite Hv. f_equal. apply Z.leb_le.
  set (x := le_decode (BN.toArray parsed)) in *.
  assert (Z.quot x (Output.value out) <= x).
  { rewrite Z.quot_div_nonneg by lia.
    apply Z.div_le_upper_bound; [lia|nia]. }
  lia.
Qed.

(** C3, as the code has it. When [(tip.height + 1) - coin.height] is below
    [STAKE_MIN_CONFIRMATIONS] the kernel returns false, whatever the other
    inputs are. *)
Theorem confirmation_gate (prev : ChainEntry.t) (blkbits : Z) (coin : Coins.t)
    (previousout : Coin.t) (timeTx : Z) :
  ChainEntry.height prev + 1 - Coins.height coin < STAKE_MIN_CONFIRMATIONS ->
  checkStakeKernelHash prev blkbits (Some coin) previousout timeTx
  = Fulfilled false.
Proof.
  intros Hgate. unfold checkStakeKernelHash, checkStakeKernelHash_body.
  destruct (Z.ltb_spec (ChainEntry.height prev + 1 - Coins.height coin)
                       STAKE_MIN_CONFIRMATIONS) as [_|Hge]; [reflexivity|lia].
Qed.

(** At [tip.height - coin.height = STAKE_MIN_CONFIRMATIONS - 1], whatever
    the constant, the gate is open: the kernel is the comparison. *)
Lemma gate_open_at_boundary (prev : ChainEntry.t) (blkbits : Z)
    (coin : Coins.t) (previousout : Coin.t) (timeTx : Z) (out : Output.t)
    (sm ph : list byte) :
  ChainEntry.height prev - Coins.height coin = STAKE_MIN_CONFIRMATIONS - 1 ->
  Coins.getOutput coin (Coin.index previousout) = Some out ->
  Output.value out <> 0 ->
  hash_bytes (ChainEntry.stakeModifier prev) = Some sm ->
  hash_bytes (Coin.hash previousout) = Some ph ->
  ChainEntry.height prev - Coins.height coin < STAKE_MIN_CONFIRMATIONS /\
  checkStakeKernelHash prev blkbits (Some coin) previousout timeTx
  = Fulfilled
      (Z.quot (BN.of_string_le
                 (Hex.encode
                    (hash256 (kernel_bytes sm (Coins.nTime coin) ph
                                (Coin.index previousout) timeTx))))
              (Output.value out)
       <=? fromCompact blkbits).
Proof.
  intros Hb Hout Hval Hsm Hph. split; [lia|].
  apply kernel_value; try assumption. lia.
Qed.



End KernelFacts.

Section KernelSamples.
Import Pos.

(** At the sample tip, for the coin of value 3 confirmed 500 blocks below
    the block being staked and Bitcoin's initial target, 65535 * 2^208: the
    kernel returns true, while the digest read as a little-endian integer
    and divided by 3 is above the target. *)
Lemma kernel_parses_digest_in_base_10_sample :
  @checkStakeKernelHash reference_primitives Sample.tip Sample.hard_bits
    (Some (Sample.coins 501 3)) Sample.outpoint Sample.stake_time
  = Fulfilled true /\
  ~ @kernel_spec reference_primitives (repeat xaa 32) 1500000000
      (repeat x11 32) 0 Sample.stake_time 3 Sample.hard_bits.
Proof.
  destruct (@kernel_parses_digest_in_base_10 reference_primitives Sample.tip
              Sample.hard_bits (Sample.coins 501 3) Sample.outpoint
              Sample.stake_time (Output.mk 3) (repeat xaa 32) (repeat x11 32))
    as (_ & _ & Hwide);
    [ vm_compute; discriminate | reflexivity | reflexivity
    | vm_compute; reflexivity | vm_compute; reflexivity
    | exact hash256_length | ].
  split.
  - apply Hwide. vm_compute. discriminate.
  - unfold Pos.kernel_spec. vm_compute. intros H. apply H. reflexivity.
Defined.

(** C3, as stated, fails at the boundary: the tip at height 1000 and a coin
    confirmed at height 501 are 499 blocks apart, fewer than the 500 of
    [STAKE_MIN_CONFIRMATIONS], and the kernel returns true. *)
Lemma confirmation_gate_boundary :
  ChainEntry.height Sample.tip - Coins.height (Sample.coins 501 3)
  < @STAKE_MIN_CONFIRMATIONS reference_primitives /\
  @checkStakeKernelHash reference_primitives Sample.tip Sample.easy_bits
    (Some (Sample.coins 501 3)) Sample.outpoint Sample.stake_time
  = Fulfilled true.
Proof.
  split; vm_compute; reflexivity.
Qed.

(** One block later the coin is too young. *)
Lemma confirmation_gate_sample :
  @checkStakeKernelHash reference_primitives Sample.tip Sample.easy_bits
    (Some (Sample.coins 502 3)) Sample.outpoint Sample.stake_time
  = Fulfilled false.
Proof.
  apply (@confirmation_gate reference_primitives).
  vm_compute. reflexivity.
Defined.


End KernelSamples.

(** ** The mining job *)

Section JobFacts.
Import Staker.
Context {Block Proof : Type}.
Local Abbreviation Job := (@STDJob Block Proof).
Local Abbreviation already_committed :=
  (Throw (AssertionError "Job already committed.")).

Lemma commit_sets_committed (j : Job) (nonce : Z) :
  committed (snd (job_commit nonce j)) = true.
Proof.
  unfold job_commit. destruct (committed j) eqn:E; cbn; [exact E|reflexivity].
Qed.

Lemma commitCnTxTime_sets_committed (j : Job) (nTime : Z) (coin : Coin.t) :
  committed (snd (job_commitCnTxTime nTime coin j)) = true.
Proof.
  unfold job_commitCnTxTime.
  destruct (committed j) eqn:E; cbn; [exact E|reflexivity].
Qed.

Lemma commit_committed (j : Job) (nonce : Z) :
  committed j = true -> job_commit nonce j = (already_committed, j).
Proof. intros E. unfold job_commit. now rewrite E. Qed.

Lemma commitCnTxTime_committed (j : Job) (nTime : Z) (coin : Coin.t) :
  committed j = true ->
  job_commitCnTxTime nTime coin j = (already_committed, j).
Proof. intros E. unfold job_commitCnTxTime. now rewrite E. Qed.

(** C4, as the code has it. A second call of [commit] or [commitCnTxTime]
    on a job raises "Job already committed.", whichever of the two was
    called first.  Neither reads the [destroyed] flag: on a job that was
    not committed, destroyed or not, [commit] returns the block the
    template makes of the proof, [commitCnTxTime] the block it makes of the
    stake, and the job is left committed with [destroyed] as it was. *)
Theorem commit_single_shot (j : Job) (nonce nonce' nTime nTime' : Z)
    (coin coin' : Coin.t) :
  fst (job_commit nonce' (snd (job_commit nonce j))) = already_committed /\
  fst (job_commitCnTxTime nTime' coin' (snd (job_commit nonce j)))
  = already_committed /\
  fst (job_commit nonce' (snd (job_commitCnTxTime nTime coin j)))
  = already_committed /\
  fst (job_commitCnTxTime nTime' coin' (snd (job_commitCnTxTime nTime coin j)))
  = already_committed /\
  (committed j = false ->
   job_commit nonce j
   = (Ok (commit (attempt j)
            (getProof (attempt j) (nonce1 j) (nonce2 j) (ts (attempt j)) nonce)),
      set_committed true j) /\
   job_commitCnTxTime nTime coin j
   = (Ok (commitCnTxTime (attempt j) nTime coin), set_committed true j) /\
   destroyed (set_committed true j) = destroyed j).
Proof.
  repeat split.
  - now rewrite commit_committed by apply commit_sets_committed.
  - now rewrite commitCnTxTime_committed by apply commit_sets_committed.
  - now rewrite commit_committed by apply commitCnTxTime_sets_committed.
  - now rewrite commitCnTxTime_committed by apply commitCnTxTime_sets_committed.
  - unfold job_commit. now rewrite H.
  - unfold job_commitCnTxTime. now rewrite H.
Qed.

Lemma round53_safe (z : Z) : Z.abs z <= JS.MAX_SAFE_INTEGER -> JS.round53 z = z.
Proof.
  unfold JS.MAX_SAFE_INTEGER, JS.round53. intros Hz.
  destruct (Z.ltb_spec (Z.abs z) (2 ^ 53)) as [_|Hge]; [reflexivity|lia].
Qed.

(** C7, as the code has it. With extra nonces [n1], [n2] and a header nonce
    that are not negative, and as long as the count is a safe integer (at
    most 2^53 - 1, so that the arithmetic of doubles is exact),
    [getHashes(nonce)] is [(n1 * 2^32 + n2) * (2^32 - 1) + nonce]: the factor
    is [0xffffffff], and the value falls short of
    [(n1 * 2^32 + n2) * 2^32 + nonce] by [n1 * 2^32 + n2]. *)
Theorem getHashes_value (j : Job) (nonce : Z) :
  0 <= nonce1 j -> 0 <= nonce2 j -> 0 <= nonce ->
  (nonce1 j * 2 ^ 32 + nonce2 j) * (2 ^ 32 - 1) + nonce <= JS.MAX_SAFE_INTEGER ->
  getHashes j nonce = (nonce1 j * 2 ^ 32 + nonce2 j) * (2 ^ 32 - 1) + nonce /\
  getHashes j nonce
  = (nonce1 j * 2 ^ 32 + nonce2 j) * 2 ^ 32 + nonce
    - (nonce1 j * 2 ^ 32 + nonce2 j).
Proof.
  intros H1 H2 Hn Hsafe.
  assert (Hv : getHashes j nonce
               = (nonce1 j * 2 ^ 32 + nonce2 j) * (2 ^ 32 - 1) + nonce).
  { unfold getHashes, JS.num_add, JS.num_mul.
    change 0x100000000 with (2 ^ 32). change 0xffffffff with (2 ^ 32 - 1).
    assert (He : 0 <= nonce1 j * 2 ^ 32 + nonce2 j) by lia.
    assert (Hm : nonce1 j * 2 ^ 32 + nonce2 j
                 <= (nonce1 j * 2 ^ 32 + nonce2 j) * (2 ^ 32 - 1)) by lia.
    rewrite (round53_safe (nonce1 j * 2 ^ 32)) by lia.
    rewrite (round53_safe (nonce1 j * 2 ^ 32 + nonce2 j)) by lia.
    rewrite (round53_safe ((nonce1 j * 2 ^ 32 + nonce2 j) * (2 ^ 32 - 1)))
      by lia.
    apply round53_safe. lia. }
  split; [exact Hv|]. rewrite Hv. ring.
Qed.

End JobFacts.

Section JobSamples.
Import Staker.

(** C4, as stated, fails on its second half: the sample job is destroyed
    and not yet committed, and [commit] returns a block. *)
Lemma commit_destroyed_returns_block :
  destroyed (Sample.job true false 0 0) = true /\
  fst (job_commit 5 (Sample.job true false 0 0))
  = Ok (AbstractBlock.mk 7 Sample.hash_11 Sample.hash_aa Sample.stake_time
                         Sample.easy_bits 5 false None None).
Proof.
  split; reflexivity.
Qed.

(** The same through the theorem: the destroyed sample job commits. *)
Lemma commit_single_shot_sample :
  job_commit 5 (Sample.job true false 0 0)
  = (Ok (AbstractBlock.mk 7 Sample.hash_11 Sample.hash_aa Sample.stake_time
                          Sample.easy_bits 5 false None None),
     Sample.job true true 0 0).
Proof.
  destruct (commit_single_shot (Sample.job true false 0 0) 5 0 0 0
              Sample.outpoint Sample.outpoint) as (_ & _ & _ & _ & H).
  destruct (H eq_refl) as (Hc & _).
  rewrite Hc. reflexivity.
Defined.

(** C7, as stated, fails: with [n1 = 0], [n2 = 1] and nonce 0 the count is
    4294967295, one less than [(0 * 2^32 + 1) * 2^32 + 0]. *)
Lemma getHashes_one_round :
  getHashes (Sample.job false false 0 1) 0 = 4294967295 /\
  (0 * 2 ^ 32 + 1) * 2 ^ 32 + 0 = 4294967296.
Proof.
  split; reflexivity.
Qed.

Lemma getHashes_value_sample :
  getHashes (Sample.job false false 0 5) 9 = (0 * 2 ^ 32 + 5) * (2 ^ 32 - 1) + 9 /\
  getHashes (Sample.job false false 0 5) 9
  = (0 * 2 ^ 32 + 5) * 2 ^ 32 + 9 - (0 * 2 ^ 32 + 5).
Proof.
  apply (getHashes_value (Sample.job false false 0 5) 9);
    vm_compute; first [reflexivity | discriminate].
Defined.

End JobSamples.

(** ** The tip listener *)

Section TipFacts.
Import Staker.
Context {Block Proof : Type}.
Local Abbreviation already_destroyed :=
  (Throw (AssertionError "Job already destroyed.")).

(** C10. The listener of the [tip] event neither clears [this.job] nor
    looks at its [destroyed] flag.  With a job referenced as the current
    job whose attempt has the [prevBlock] of the new tip: if the job is
    already destroyed the listener throws "Job already destroyed."; if it
    is not, the listener destroys it and leaves it referenced, so that the
    same event once more throws. *)
Theorem tip_on_destroyed_job (self : @STDStaker Block Proof)
    (j : @STDJob Block Proof) (tip : ChainEntry.t) :
  job self = Some j ->
  prevBlock (attempt j) = ChainEntry.prevBlock tip ->
  (destroyed j = true ->
   fst (onTip tip self) = already_destroyed /\
   job (snd (onTip tip self)) = Some j) /\
  (destroyed j = false ->
   fst (onTip tip self) = Ok tt /\
   job (snd (onTip tip self)) = Some (set_destroyed true j) /\
   fst (onTip tip (snd (onTip tip self))) = already_destroyed).
Proof.
  intros Hj Hp.
  assert (E : onTip tip self
              = let (r, j') := destroy j in (r, set_job (Some j') self)).
  { unfold onTip. now rewrite Hj, Hp, String.eqb_refl. }
  split; intros Hd; rewrite E; unfold destroy; rewrite Hd; cbn.
  - now split.
  - split; [reflexivity|]. split; [reflexivity|].
    unfold onTip. cbn. now rewrite Hp, String.eqb_refl.
Qed.

End TipFacts.

Section TipSamples.
Import Staker.

(** The sample staker holds a destroyed job on the parent of the sample
    tip: the event throws. *)
Lemma tip_on_destroyed_job_sample :
  fst (onTip Sample.tip
         (Sample.staker [] (Some (Sample.job true false 0 0))))
  = Throw (AssertionError "Job already destroyed.").
Proof.
  destruct (tip_on_destroyed_job
              (Sample.staker [] (Some (Sample.job true false 0 0)))
              (Sample.job true false 0 0) Sample.tip) as [H _];
    [reflexivity | reflexivity |].
  destruct H as [H _]; [reflexivity | exact H].
Defined.

End TipSamples.

(** ** The nonce search *)
Section LoopFacts.
Import Staker.
Context {Block Proof : Type}.
Variables limit interval : Z.
Hypothesis interval_pos : 0 < interval.

Local Abbreviation on_grid := (Staker.on_grid limit interval).

Lemma mine_calls_app (tr tr' : list Event) :
  mine_calls (tr ++ tr') = mine_calls tr ++ mine_calls tr'.
Proof. apply flat_map_app. Qed.

(** Started on the grid, the loop calls [mine] on slices of the grid only. *)
Lemma loop_on_grid (mine : Z -> Z -> Z) (j : @STDJob Block Proof) (a b : Z)
    (nonce : option Z) (tr : list Event) :
  forall k, 0 <= k -> a = k * interval -> b = (k + 1) * interval ->
  Forall on_grid tr ->
  Forall on_grid
    (snd (findNonce_loop limit interval interval_pos mine j a b nonce tr)).
Proof.
  funelim (findNonce_loop limit interval interval_pos mine j a b nonce tr);
    intros k Hk Ha Hb Htr.
  - exact Htr.
  - match goal with IH : forall k : Z, _ |- _ => apply (IH (k + 1)) end;
      [lia | lia | lia |].
    unfold sendStatus. apply Forall_app. split.
    + apply Forall_app. split; [exact Htr|].
      apply Forall_cons; [|apply Forall_nil]. exists k. lia.
    + apply Forall_cons; [exact I|apply Forall_nil].
  - cbn [snd]. apply Forall_app; split; [exact Htr|].
    apply Forall_cons; [|apply Forall_nil]. exists k. lia.
Qed.

(** When [mine] fails on every slice of the grid, the loop runs through all
    of them and ends with the last answer of [mine]. *)
Lemma loop_exhausts (mine : Z -> Z -> Z) (j : @STDJob Block Proof) (a b : Z)
    (nonce : option Z) (tr : list Event) :
  forall k, 0 <= k -> a = k * interval -> b = (k + 1) * interval ->
  (forall k', k <= k' -> (k' + 1) * interval <= limit ->
              mine (k' * interval) ((k' + 1) * interval) = -1) ->
  b <= limit \/ nonce = Some (-1) ->
  fst (findNonce_loop limit interval interval_pos mine j a b nonce tr)
  = Some (-1) /\
  mine_calls (snd (findNonce_loop limit interval interval_pos mine j a b nonce tr))
  = mine_calls tr ++ slices interval k (Z.to_nat (limit / interval - k)).
Proof.
  funelim (findNonce_loop limit interval interval_pos mine j a b nonce tr);
    intros k Hk Ha Hb Hmine Hstart.
  - assert (Hq : limit / interval < k + 1)
      by (apply Z.div_lt_upper_bound; lia).
    replace (Z.to_nat (limit / interval - k)) with O by lia.
    cbn [fst snd slices]. rewrite app_nil_r.
    split; [|reflexivity]. destruct Hstart as [Hle|Hn]; [lia|exact Hn].
  - assert (Hq : k + 1 <= limit / interval)
      by (apply Z.div_le_lower_bound; lia).
    match goal with Hn : (_ =? -1) = true |- _ => apply Z.eqb_eq in Hn;
      match goal with IH : forall k : Z, _ |- _ =>
        destruct (IH (k + 1)) as [Hr Hc]; try lia;
          [intros k' Hk' Hl; apply Hmine; lia | right; now rewrite Hn |]
      end
    end.
    split; [exact Hr|]. rewrite Hc.
    unfold sendStatus. rewrite !mine_calls_app. cbn [mine_calls flat_map app].
    replace (Z.to_nat (limit / interval - k))
      with (S (Z.to_nat (limit / interval - (k + 1)))) by lia.
    cbn [slices]. rewrite <- !app_assoc. cbn [app]. now subst.
  - exfalso.
    match goal with Hn : (_ =? -1) = false |- _ => apply Z.eqb_neq in Hn;
      apply Hn end.
    subst. apply Hmine; lia.
Qed.

End LoopFacts.

Section FindNonceFacts.
Import Staker.
Context {Block Proof : Type}.

Lemma INTERVAL_value : INTERVAL = 2863311.
Proof. reflexivity. Qed.

(** C9. [INTERVAL] is 2863311.  Whatever the [mine] primitive, every slice
    [findNonce] hands to it is [[k * INTERVAL, (k + 1) * INTERVAL)] for some
    [k] below 1500, so it ends at 4294966500 at the latest and the nonces
    from 4294966500 to 4294967295 are in no slice.  When [mine] answers -1
    on every slice without a winning nonce and all winning nonces lie in
    that top range, [findNonce] calls [mine] on the 1500 slices in turn and
    returns -1. *)
Theorem findNonce_skips_top (mine : list byte -> list byte -> Z -> Z -> Z)
    (j : @STDJob Block Proof) :
  INTERVAL = 2863311 /\ 1500 * INTERVAL = 4294966500 /\
  (forall a b, In (EvMine a b) (snd (findNonce mine j)) ->
     exists k, 0 <= k < 1500 /\ a = k * INTERVAL /\ b = (k + 1) * INTERVAL /\
               b <= 4294966500) /\
  (forall wins : Z -> bool,
     (forall a b, (forall n, a <= n < b -> wins n = false) ->
                  mine (job_getHeader j) (target (attempt j)) a b = -1) ->
     (forall n, wins n = true -> 4294966500 <= n <= 4294967295) ->
     fst (findNonce mine j) = Some (-1) /\
     mine_calls (snd (findNonce mine j)) = slices INTERVAL 0 1500).
Proof.
  split; [exact INTERVAL_value|]. split; [reflexivity|]. split.
  - intros a b Hin.
    pose proof (loop_on_grid 0xffffffff INTERVAL INTERVAL_pos
                  (mine (job_getHeader j) (target (attempt j))) j
                  0 INTERVAL None [] 0 ltac:(lia) ltac:(lia) ltac:(lia)
                  (Forall_nil _)) as Hgrid.
    rewrite Forall_forall in Hgrid. specialize (Hgrid _ Hin).
    destruct Hgrid as (k & Hk & Ha & Hb & Hl).
    rewrite INTERVAL_value in *. exists k. lia.
  - intros wins Hmine Hwins.
    destruct (loop_exhausts 0xffffffff INTERVAL INTERVAL_pos
                (mine (job_getHeader j) (target (attempt j))) j
                0 INTERVAL None [] 0 ltac:(lia) ltac:(lia) ltac:(lia))
      as [Hr Hc].
    + intros k' Hk' Hl. apply Hmine. intros n Hn.
      destruct (wins n) eqn:Hw; [|reflexivity].
      apply Hwins in Hw. rewrite INTERVAL_value in *. lia.
    + left. rewrite INTERVAL_value. lia.
    + split; [exact Hr|]. unfold findNonce. rewrite Hc.
      rewrite INTERVAL_value. reflexivity.
Qed.

End FindNonceFacts.

Section FindNonceSamples.
Import Staker.

(** The only winning nonce is 4294967295: [findNonce] misses it. *)
Lemma findNonce_skips_top_sample :
  fst (findNonce Sample.mine_last (Sample.job false false 0 0)) = Some (-1) /\
  mine_calls (snd (findNonce Sample.mine_last (Sample.job false false 0 0)))
  = slices INTERVAL 0 1500.
Proof.
  destruct (findNonce_skips_top Sample.mine_last (Sample.job false false 0 0))
    as (_ & _ & _ & H).
  apply (H (fun n => n =? Sample.last_nonce)).
  - intros a b Hnone. unfold Sample.mine_last.
    destruct (Z.leb_spec a Sample.last_nonce) as [Ha|Ha]; [|reflexivity].
    destruct (Z.ltb_spec Sample.last_nonce b) as [Hb|Hb]; [|reflexivity].
    specialize (Hnone Sample.last_nonce (conj Ha Hb)).
    rewrite Z.eqb_refl in Hnone. discriminate Hnone.
  - intros n Hn. apply Z.eqb_eq in Hn. subst n.
    unfold Sample.last_nonce. lia.
Defined.

End FindNonceSamples.

(** ** The stake search *)

Section StakeFacts.
Import Staker.
Context {Block Proof : Type} {P : Primitives}.

(** Without coins the outer loop never ends. *)
Lemma stake_loop_no_coins (fuel : nat) (self : @STDStaker Block Proof)
    (prev : ChainEntry.t) (prevOut : option Output.t) (nTime : Z) (w : World) :
  stake_loop fuel self prev prevOut [] nTime w = Spinning.
Proof.
  revert nTime w; induction fuel as [|fuel IH]; intros nTime w;
    [reflexivity|].
  cbn [stake_loop].
  destruct (negb (nTime =? 0)); cbn [util_now].
  - destruct (nTime + 16 =? clock w (reads w)); [apply IH|].
    cbn [stake_scan]. apply IH.
  - cbn [stake_scan]. apply IH.
Qed.

Local Abbreviation prevOut_undefined :=
  (TypeError "Cannot read property 'value' of undefined").

(** C2, on the code. With at least one coin in the wallet, the stake search
    throws a [TypeError] at [prevOut.value] in its first iteration, for the
    first coin: it has read the clock once, called the kernel not at all
    (the trace is as it was) and left the job untouched.  No target, from
    the value of the coin or from anything else, reaches the kernel. *)
Theorem doStake_throws_before_kernel (fuel : nat)
    (self : @STDStaker Block Proof) (j : STDJob) (w : World)
    (coin : Coin.t) (rest : list Coin.t) :
  doStake (S fuel) (set_coins (coin :: rest) self) j w
  = Done (Throw prevOut_undefined) j
         (mkWorld (clock w) (S (reads w)) (trace w)) /\
  doStakeAsync (S fuel) (set_coins (coin :: rest) self) j w
  = Done (Rejected prevOut_undefined) j
         (mkWorld (clock w) (S (reads w)) (trace w)).
Proof.
  split; reflexivity.
Qed.

(** C6, on the code. The stake search never reads the [destroyed] flag: on
    a destroyed job and a wallet without coins, no number of iterations
    lets [doStake] or [doStakeAsync] return; and on any wallet, setting the
    flag of the job changes nothing in the run but the flag in the job that
    is left. *)
Theorem doStake_ignores_destroyed (fuel : nat)
    (self : @STDStaker Block Proof) (j : STDJob) (w : World) :
  doStake fuel (set_coins [] self) (set_destroyed true j) w = OutOfFuel /\
  doStakeAsync fuel (set_coins [] self) (set_destroyed true j) w = OutOfFuel /\
  forall b : bool,
    doStake fuel self (set_destroyed b j) w
    = match doStake fuel self j w with
      | Done r j' w' => Done r (set_destroyed b j') w'
      | OutOfFuel => OutOfFuel
      end.
Proof.
  repeat split.
  - unfold doStake. cbn [set_coins wallet coins].
    now rewrite stake_loop_no_coins.
  - unfold doStakeAsync, doStake. cbn [set_coins wallet coins].
    now rewrite stake_loop_no_coins.
  - intros b. unfold doStake.
    destruct (stake_loop fuel self (tip (chain self)) None
                (coins (wallet self)) 0 w) as [nTime stakeCoin w'|e w'|];
      try reflexivity.
    unfold job_commitCnTxTime. cbn [set_destroyed committed].
    destruct (committed j); reflexivity.
Qed.

End StakeFacts.

(** * Further properties of the code *)

(** ** The kernel: early exits and the target *)

Section KernelMore.
Import Bytes Wire Pos.
Context {P : Primitives}.

(** X1. The early exits of the kernel, in the order of the code: without a
    coin it returns false; past the confirmation gate, a transaction without
    an output at [previousout.index] makes it throw (a rejected promise, not
    false), and an output of value 0 makes it return false; a coin that is
    too young returns false even when the output is missing. *)
Theorem kernel_early_exits (prev : ChainEntry.t) (blkbits : Z)
    (previousout : Coin.t) (timeTx : Z) :
  checkStakeKernelHash prev blkbits None previousout timeTx = Fulfilled false /\
  forall coin : Coins.t,
    (STAKE_MIN_CONFIRMATIONS <= ChainEntry.height prev + 1 - Coins.height coin ->
     Coins.getOutput coin (Coin.index previousout) = None ->
     checkStakeKernelHash prev blkbits (Some coin) previousout timeTx
     = Rejected (TypeError "Cannot read property 'value' of null")) /\
    (STAKE_MIN_CONFIRMATIONS <= ChainEntry.height prev + 1 - Coins.height coin ->
     forall out, Coins.getOutput coin (Coin.index previousout) = Some out ->
                 Output.value out = 0 ->
     checkStakeKernelHash prev blkbits (Some coin) previousout timeTx
     = Fulfilled false) /\
    (ChainEntry.height prev + 1 - Coins.height coin < STAKE_MIN_CONFIRMATIONS ->
     Coins.getOutput coin (Coin.index previousout) = None ->
     checkStakeKernelHash prev blkbits (Some coin) previousout timeTx
     = Fulfilled false).
Proof.
  split; [reflexivity|]. intros coin.
  unfold checkStakeKernelHash, checkStakeKernelHash_body.
  repeat split.
  - intros Hg Hnone.
    destruct (Z.ltb_spec (ChainEntry.height prev + 1 - Coins.height coin)
                         STAKE_MIN_CONFIRMATIONS); [lia|].
    now rewrite Hnone.
  - intros Hg out Hout Hzero.
    destruct (Z.ltb_spec (ChainEntry.height prev + 1 - Coins.height coin)
                         STAKE_MIN_CONFIRMATIONS); [lia|].
    rewrite Hout. cbn [JS.bind]. now rewrite Hzero.
  - intros Hg _.
    destruct (Z.ltb_spec (ChainEntry.height prev + 1 - Coins.height coin)
                         STAKE_MIN_CONFIRMATIONS); [reflexivity|lia].
Qed.

(** X2. The kernel is monotone in the target: for the same tip, coin,
    outpoint and time, a kernel that holds for one compact target holds for
    every compact target whose expansion is at least as large. *)
Theorem kernel_monotone_in_target (prev : ChainEntry.t) (bits1 bits2 : Z)
    (coin : option Coins.t) (previousout : Coin.t) (timeTx : Z) :
  fromCompact bits1 <= fromCompact bits2 ->
  checkStakeKernelHash prev bits1 coin previousout timeTx = Fulfilled true ->
  checkStakeKernelHash prev bits2 coin previousout timeTx = Fulfilled true.
Proof.
  intros Hle. unfold checkStakeKernelHash, checkStakeKernelHash_body.
  destruct coin as [coin|]; [|intros H; exact H].
  destruct (ChainEntry.height prev + 1 - Coins.height coin
            <? STAKE_MIN_CONFIRMATIONS); [intros H; exact H|].
  destruct (Coins.getOutput coin (Coin.index previousout)) as [out|];
    [|intros H; exact H].
  cbn [JS.bind].
  destruct (Output.value out =? 0); [intros H; exact H|].
  destruct (proofOfStake prev coin previousout timeTx) as [w|e];
    [|intros H; exact H].
  cbn [JS.bind JS.async]. intros H. injection H as H. f_equal.
  apply cmp_le. apply cmp_le in H. lia.
Qed.

End KernelMore.

Section KernelMoreSamples.
Import Pos.

(** The sample coin has no output at index 1. *)
Lemma kernel_early_exits_sample :
  @checkStakeKernelHash reference_primitives Sample.tip Sample.easy_bits
    (Some (Sample.coins 501 3))
    (Coin.mk Sample.hash_11 1 100 "staking address") Sample.stake_time
  = Rejected (TypeError "Cannot read property 'value' of null").
Proof.
  destruct (@kernel_early_exits reference_primitives Sample.tip
              Sample.easy_bits
              (Coin.mk Sample.hash_11 1 100 "staking address")
              Sample.stake_time) as [_ H].
  destruct (H (Sample.coins 501 3)) as [Hmissing _].
  apply Hmissing; vm_compute; first [reflexivity | discriminate].
Defined.

(** The sample coin meets the target of mantissa [0x200000] and exponent 32,
    hence the easiest one. *)
Lemma kernel_monotone_in_target_sample :
  @checkStakeKernelHash reference_primitives Sample.tip Sample.easy_bits
    (Some (Sample.coins 501 3)) Sample.outpoint Sample.stake_time
  = Fulfilled true.
Proof.
  apply (@kernel_monotone_in_target reference_primitives Sample.tip
           0x20200000 Sample.easy_bits);
    vm_compute; first [reflexivity | discriminate].
Defined.

End KernelMoreSamples.

(** ** The next stake modifier *)

Section ModifierFacts.
Import Bytes Wire Pos StakeModifier.
Context {P : Primitives}.

(** X3. For a kernel hash and a previous modifier that are hashes (64 hex
    digits, of either case), [computeStakeModifier] returns the hex string
    of [hash256(kernel || prevStakeModifier)], in that order.  When the
    digest has 32 bytes the result is a well-formed hash again: it decodes
    to the digest, and with it as stake modifier of the tip the kernel
    serializes its 76 bytes without an error. *)
Theorem computeStakeModifier_chains (prevStakeModifier kernel : string)
    (pb kb : list byte) :
  hash_bytes prevStakeModifier = Some pb ->
  hash_bytes kernel = Some kb ->
  (forall data, List.length (hash256 data) = 32%nat) ->
  computeStakeModifier prevStakeModifier kernel
  = Ok (Hex.encode (hash256 (kb ++ pb))) /\
  is_hash (Hex.encode (hash256 (kb ++ pb))) = true /\
  hash_bytes (Hex.encode (hash256 (kb ++ pb))) = Some (hash256 (kb ++ pb)) /\
  forall (height : Z) (parent : Hash) (coin : Coins.t) (previousout : Coin.t)
         (timeTx : Z) (ph : list byte),
    hash_bytes (Coin.hash previousout) = Some ph ->
    exists w,
      proofOfStake
        (ChainEntry.mk height parent (Hex.encode (hash256 (kb ++ pb))))
        coin previousout timeTx = Ok w /\
      data w = kernel_bytes (hash256 (kb ++ pb)) (Coins.nTime coin) ph
                            (Coin.index previousout) timeTx.
Proof.
  intros Hp Hk Hlen.
  pose proof (hash_bytes_length _ _ Hp) as Lp.
  pose proof (hash_bytes_length _ _ Hk) as Lk.
  destruct (hash_bytes_encode _ (Hlen (kb ++ pb))) as [Hwf Hbytes].
  split.
  { unfold computeStakeModifier, hexToBytes, writeHash_buffer.
    unfold hash_bytes in Hp, Hk.
    destruct (Nat.eqb (String.length prevStakeModifier) 64); [|discriminate Hp].
    destruct (Nat.eqb (String.length kernel) 64); [|discriminate Hk].
    rewrite Hk. cbn [JS.bind]. rewrite Lk. cbn.
    rewrite Hp. cbn [JS.bind]. rewrite Lp. cbn. reflexivity. }
  split; [exact Hwf|]. split; [exact Hbytes|].
  intros height parent coin previousout timeTx ph Hph.
  apply proofOfStake_bytes; [exact Hbytes | exact Hph].
Qed.

End ModifierFacts.

Section ModifierSamples.
Import StakeModifier.

(** With double SHA-256: the modifier after the sample tip, for the kernel
    hash [11..11]. *)
Lemma computeStakeModifier_chains_sample :
  @computeStakeModifier reference_primitives Sample.hash_aa Sample.hash_11
  = Ok (Hex.encode
          (@hash256 reference_primitives (repeat x11 32 ++ repeat xaa 32))) /\
  is_hash (Hex.encode
             (@hash256 reference_primitives (repeat x11 32 ++ repeat xaa 32)))
  = true.
Proof.
  destruct (@computeStakeModifier_chains reference_primitives
              Sample.hash_aa Sample.hash_11 (repeat xaa 32) (repeat x11 32))
    as (H1 & H2 & _).
  - vm_compute. reflexivity.
  - vm_compute. reflexivity.
  - exact hash256_length.
  - split; [exact H1 | exact H2].
Defined.

End ModifierSamples.

(** ** The job: extra nonces and the sequence of calls *)

Section JobMore.
Import Staker Supervisor.
Context {Block Proof : Type}.
Local Abbreviation Job := (@STDJob Block Proof).

Lemma updateNonce_step (j : Job) :
  0 <= nonce1 j -> 0 <= nonce2 j < 2 ^ 32 ->
  nonce1 j + 1 <= JS.MAX_SAFE_INTEGER ->
  extraNonce (updateNonce j) = extraNonce j + 1 /\
  0 <= nonce2 (updateNonce j) < 2 ^ 32 /\
  nonce1 j <= nonce1 (updateNonce j) <= nonce1 j + 1 /\
  attempt (updateNonce j) = attempt j /\
  destroyed (updateNonce j) = destroyed j /\
  committed (updateNonce j) = committed j /\
  start (updateNonce j) = start j.
Proof.
  intros H1 H2 Hs. unfold updateNonce, extraNonce, JS.num_add.
  change 0x100000000 with (2 ^ 32).
  unfold JS.MAX_SAFE_INTEGER in Hs.
  rewrite (round53_safe (nonce2 j + 1))
    by (unfold JS.MAX_SAFE_INTEGER; lia).
  rewrite (round53_safe (nonce1 j + 1))
    by (unfold JS.MAX_SAFE_INTEGER; lia).
  destruct (Z.eqb_spec (nonce2 j + 1) (2 ^ 32)) as [E|E];
    cbn [nonce1 nonce2 attempt destroyed committed start];
    repeat split; try reflexivity; lia.
Qed.

(** X4. The extra nonce is a counter with a carry: from a job whose [n2]
    is below 2^32 and whose counters are not negative, [k] calls of
    [updateNonce] add exactly [k] to [n1 * 2^32 + n2] and keep [n2] below
    2^32 (at 2^32 it is reset and [n1] incremented), as long as [n1] stays
    a safe integer; the template and the flags of the job are untouched. *)
Theorem updateNonce_counts (k : nat) (j : Job) :
  0 <= nonce1 j -> 0 <= nonce2 j < 2 ^ 32 ->
  nonce1 j + Z.of_nat k <= JS.MAX_SAFE_INTEGER ->
  extraNonce (updateNonces k j) = extraNonce j + Z.of_nat k /\
  0 <= nonce2 (updateNonces k j) < 2 ^ 32 /\
  nonce1 j <= nonce1 (updateNonces k j) <= nonce1 j + Z.of_nat k /\
  attempt (updateNonces k j) = attempt j /\
  destroyed (updateNonces k j) = destroyed j /\
  committed (updateNonces k j) = committed j.
Proof.
  intros H1 H2.
  induction k as [|k IH]; intros Hs.
  - cbn [updateNonces]. repeat split; try reflexivity; lia.
  - cbn [updateNonces].
    destruct IH as (He & Hr & Hn & Ha & Hd & Hc); [lia|].
    destruct (updateNonce_step (updateNonces k j))
      as (He' & Hr' & Hn' & Ha' & Hd' & Hc' & _); [lia | exact Hr | lia |].
    rewrite He', He, Ha', Ha, Hd', Hd, Hc', Hc.
    repeat split; try reflexivity; lia.
Qed.

Lemma call_keeps (c : Call) (j : Job) :
  attempt (snd (call c j)) = attempt j /\
  (destroyed j = true -> destroyed (snd (call c j)) = true) /\
  (committed j = true ->
   committed (snd (call c j)) = true /\ blocks_of [fst (call c j)] = []) /\
  (blocks_of [fst (call c j)] <> [] -> committed (snd (call c j)) = true) /\
  (List.length (blocks_of [fst (call c j)]) <= 1)%nat.
Proof.
  destruct c as [nonce|nTime coin| |]; unfold call.
  - unfold job_commit. destruct (committed j) eqn:E; cbn;
      repeat split; try tauto; try discriminate; lia.
  - unfold job_commitCnTxTime. destruct (committed j) eqn:E; cbn;
      repeat split; try tauto; try discriminate; lia.
  - unfold updateNonce.
    destruct (JS.num_add (nonce2 j) 1 =? 0x100000000); cbn;
      repeat split; try tauto; lia.
  - unfold destroy. destruct (destroyed j) eqn:E; cbn;
      repeat split; try tauto; lia.
Qed.

Lemma blocks_of_cons (r : Reply) (rs : list (@Reply Block)) :
  blocks_of (r :: rs) = blocks_of [r] ++ blocks_of rs.
Proof.
  unfold blocks_of. cbn [flat_map]. now rewrite app_nil_r.
Qed.

(** X5. Whatever methods are called on a job, in whatever order and however
    often, at most one call returns a block, and none does when the job was
    committed before; the template is never replaced, and [destroyed] and
    [committed] are never reset. *)
Theorem job_yields_one_block (cs : list Call) (j : Job) :
  (List.length (blocks_of (fst (calls cs j))) <= 1)%nat /\
  (committed j = true -> blocks_of (fst (calls cs j)) = []) /\
  attempt (snd (calls cs j)) = attempt j /\
  (destroyed j = true -> destroyed (snd (calls cs j)) = true) /\
  (committed j = true -> committed (snd (calls cs j)) = true).
Proof.
  revert j; induction cs as [|c cs IH]; intros j.
  - cbn. repeat split; auto.
  - cbn [calls].
    pose proof (call_keeps c j) as (Ha & Hd & Hc & Hb & Hl).
    destruct (call c j) as [r j1]. cbn [fst snd] in *.
    specialize (IH j1). destruct IH as (IHl & IHc & IHa & IHd & IHk).
    destruct (calls cs j1) as [rs j2]. cbn [fst snd] in *.
    rewrite blocks_of_cons, length_app.
    repeat split.
    + destruct (blocks_of [r]) as [|b bs] eqn:E; [cbn; exact IHl|].
      rewrite IHc by (apply Hb; discriminate). cbn in *. lia.
    + intros Hcj. destruct (Hc Hcj) as [Hc1 Hnil].
      rewrite Hnil, IHc by exact Hc1. reflexivity.
    + congruence.
    + auto.
    + intros Hcj. apply IHk. now apply Hc.
Qed.

End JobMore.

Section JobMoreSamples.
Import Staker Supervisor.

(** Two updates from [(0, 2^32 - 1)] lead to [(1, 1)]. *)
Lemma updateNonce_counts_sample :
  extraNonce (updateNonces 2 (Sample.job false false 0 (2 ^ 32 - 1)))
  = extraNonce (Sample.job false false 0 (2 ^ 32 - 1)) + 2 /\
  nonce1 (updateNonces 2 (Sample.job false false 0 (2 ^ 32 - 1))) = 1 /\
  nonce2 (updateNonces 2 (Sample.job false false 0 (2 ^ 32 - 1))) = 1.
Proof.
  destruct (updateNonce_counts 2 (Sample.job false false 0 (2 ^ 32 - 1)))
    as (H & _);
    [vm_compute; discriminate
    | split; vm_compute; first [reflexivity | discriminate]
    | vm_compute; discriminate |].
  split; [exact H|]. split; reflexivity.
Defined.

End JobMoreSamples.

(** ** The listeners and the stop path *)

Section ListenerFacts.
Import Staker Supervisor.
Context {Block Proof : Type}.
Local Abbreviation already_destroyed :=
  (Throw (AssertionError "Job already destroyed.")).


(** X7. A tip event on the parent of the current job followed by
    [notifyEntry] more than 10 seconds after the job started: the listener
    of the tip destroys the job and keeps it as current job, so
    [notifyEntry] calls [destroy] once more and throws "Job already
    destroyed."; the job stays the current job. *)
Theorem tip_then_notifyEntry_throws (self : @STDStaker Block Proof)
    (j : STDJob) (tip : ChainEntry.t) (w : World) :
  running self = true -> job self = Some j -> destroyed j = false ->
  prevBlock (attempt j) = ChainEntry.prevBlock tip ->
  10 < clock w (reads w) - start j ->
  fst (onTip tip self) = Ok tt /\
  fst (fst (notifyEntry (snd (onTip tip self)) w)) = already_destroyed /\
  job (snd (fst (notifyEntry (snd (onTip tip self)) w)))
  = Some (set_destroyed true j).
Proof.
  intros Hr Hj Hd Hp Hage.
  assert (E : onTip tip self = (Ok tt, set_job (Some (set_destroyed true j)) self)).
  { unfold onTip. rewrite Hj, Hp, String.eqb_refl. unfold destroy.
    now rewrite Hd. }
  rewrite E. cbn [fst snd]. split; [reflexivity|].
  unfold notifyEntry. cbn [set_job running job]. rewrite Hr.
  cbn [negb util_now set_destroyed start].
  destruct (Z.ltb_spec 10 (clock w (reads w) - start j)); [|lia].
  cbn. now split.
Qed.

(** X8. A tip event on the parent of the current job followed by a stop:
    [_stop] sets [stopping], calls [destroy] on the job the listener left
    behind and throws "Job already destroyed." before it waits; the staker
    is left running and stopping, and every further [_stop] throws "Miner
    is already stopping.". *)
Theorem tip_then_stop_throws (self : @STDStaker Block Proof)
    (j : STDJob) (tip : ChainEntry.t) :
  running self = true -> stopping self = false -> job self = Some j ->
  destroyed j = false ->
  prevBlock (attempt j) = ChainEntry.prevBlock tip ->
  let self1 := snd (onTip tip self) in
  let self2 := snd (_stop_until_wait self1) in
  fst (_stop_until_wait self1) = already_destroyed /\
  running self2 = true /\ stopping self2 = true /\
  job self2 = Some (set_destroyed true j) /\
  _stop_until_wait self2
  = (Throw (AssertionError "Miner is already stopping."), self2).
Proof.
  intros Hr Hs Hj Hd Hp.
  assert (E : onTip tip self = (Ok tt, set_job (Some (set_destroyed true j)) self)).
  { unfold onTip. rewrite Hj, Hp, String.eqb_refl. unfold destroy.
    now rewrite Hd. }
  rewrite E. cbn [snd].
  unfold _stop_until_wait. cbn [set_job running stopping job set_stopping].
  rewrite Hr, Hs. cbn. rewrite Hr. cbn. repeat split; reflexivity.
Qed.

End ListenerFacts.

Section ListenerSamples.
Import Staker Supervisor.


Lemma tip_then_notifyEntry_throws_sample :
  fst (fst (notifyEntry
              (snd (onTip Sample.tip
                      (Sample.staker [] (Some (Sample.job false false 0 0)))))
              (mkWorld (fun _ => Sample.stake_time + 11) 0 [])))
  = Throw (AssertionError "Job already destroyed.").
Proof.
  destruct (tip_then_notifyEntry_throws
              (Sample.staker [] (Some (Sample.job false false 0 0)))
              (Sample.job false false 0 0) Sample.tip
              (mkWorld (fun _ => Sample.stake_time + 11) 0 []))
    as (_ & H & _);
    [reflexivity | reflexivity | reflexivity | reflexivity
    | vm_compute; reflexivity |].
  exact H.
Defined.

Lemma tip_then_stop_throws_sample :
  fst (_stop_until_wait
         (snd (onTip Sample.tip
                 (Sample.staker [] (Some (Sample.job false false 0 0))))))
  = Throw (AssertionError "Job already destroyed.").
Proof.
  destruct (tip_then_stop_throws
              (Sample.staker [] (Some (Sample.job false false 0 0)))
              (Sample.job false false 0 0) Sample.tip)
    as (H & _);
    [reflexivity | reflexivity | reflexivity | reflexivity | reflexivity |].
  exact H.
Defined.

End ListenerSamples.

(** ** The nonce search: the first hit *)

Section LoopMore.
Import Staker Supervisor.
Context {Block Proof : Type}.
Variables limit interval : Z.
Hypothesis interval_pos : 0 < interval.

Lemma status_nonces_app (tr tr' : list Event) :
  status_nonces (tr ++ tr') = status_nonces tr ++ status_nonces tr'.
Proof. apply flat_map_app. Qed.

(** Started on slice [k], with [mine] missing on the slices [k] to [m - 1]
    and answering on slice [m], the loop returns that answer after the
    slices [k] to [m], having reported the misses. *)
Lemma loop_first_hit (mine : Z -> Z -> Z) (j : @STDJob Block Proof) (a b : Z)
    (nonce : option Z) (tr : list Event) :
  forall (k m : nat),
    a = Z.of_nat k * interval -> b = (Z.of_nat k + 1) * interval ->
    (k <= m)%nat -> (Z.of_nat m + 1) * interval <= limit ->
    (forall k', (k <= k' < m)%nat ->
       mine (Z.of_nat k' * interval) ((Z.of_nat k' + 1) * interval) = -1) ->
    mine (Z.of_nat m * interval) ((Z.of_nat m + 1) * interval) <> -1 ->
    fst (findNonce_loop limit interval interval_pos mine j a b nonce tr)
    = Some (mine (Z.of_nat m * interval) ((Z.of_nat m + 1) * interval)) /\
    mine_calls (snd (findNonce_loop limit interval interval_pos mine j a b nonce tr))
    = mine_calls tr ++ slices interval (Z.of_nat k) (m - k + 1) /\
    status_nonces (snd (findNonce_loop limit interval interval_pos mine j a b nonce tr))
    = status_nonces tr ++ map snd (slices interval (Z.of_nat k) (m - k)).
Proof.
  funelim (findNonce_loop limit interval interval_pos mine j a b nonce tr);
    intros k m Ha Hb Hkm Hm Hmiss Hhit.
  - exfalso. nia.
  - match goal with Hn : (_ =? -1) = true |- _ => apply Z.eqb_eq in Hn end.
    assert (Hlt : (k < m)%nat).
    { destruct (Nat.eq_dec k m) as [->|]; [|lia]. subst. contradiction. }
    match goal with IH : forall k m : nat, _ |- _ =>
      destruct (IH (S k) m) as (Hr & Hc & Hs); try lia; try assumption;
        [intros k' Hk'; apply Hmiss; lia|]
    end.
    split; [exact Hr|]. rewrite Hc, Hs. unfold sendStatus.
    rewrite !mine_calls_app, !status_nonces_app.
    cbn [mine_calls status_nonces flat_map app].
    replace (m - k + 1)%nat with (S (m - S k + 1)) by lia.
    replace (m - k)%nat with (S (m - S k)) by lia.
    cbn [slices map snd]. rewrite <- !app_assoc. cbn [app].
    replace (Z.of_nat (S k)) with (Z.of_nat k + 1) by lia.
    rewrite ?app_nil_r. subst. split; reflexivity.
  - match goal with Hn : (_ =? -1) = false |- _ =>
      apply Z.eqb_neq in Hn; rename Hn into Hne end.
    assert (Hk : k = m).
    { destruct (Nat.eq_dec k m) as [E|E]; [exact E|].
      exfalso. subst. apply Hne. apply Hmiss. lia. }
    subst. cbn [fst snd]. rewrite mine_calls_app, status_nonces_app.
    replace (m - m + 1)%nat with 1%nat by lia.
    replace (m - m)%nat with 0%nat by lia.
    cbn. rewrite app_nil_r. repeat split; reflexivity.
Qed.

(** With a primitive that keeps the contract, the loop returns the lowest
    winning nonce from its start to the end of the last slice, or -1 when
    there is none. *)
Lemma loop_least (wins : Z -> bool) (mine : Z -> Z -> Z)
    (j : @STDJob Block Proof) (a b : Z) (nonce : option Z) (tr : list Event) :
  forall k, 0 <= k -> a = k * interval -> b = (k + 1) * interval ->
  mine_least wins mine ->
  b <= limit \/ nonce = Some (-1) ->
  exists n,
    fst (findNonce_loop limit interval interval_pos mine j a b nonce tr)
    = Some n /\
    ((n = -1 /\
      forall x, a <= x < limit / interval * interval -> wins x = false) \/
     (a <= n < limit / interval * interval /\ wins n = true /\
      forall x, a <= x < n -> wins x = false)).
Proof.
  funelim (findNonce_loop limit interval interval_pos mine j a b nonce tr);
    intros k Hk Ha Hb Hmine Hstart.
  - destruct Hstart as [Hle|Hn]; [lia|]. exists (-1). split; [now subst|].
    left. split; [reflexivity|]. intros x Hx. exfalso.
    assert (limit / interval < k + 1) by (apply Z.div_lt_upper_bound; lia).
    nia.
  - match goal with Hn : (_ =? -1) = true |- _ => apply Z.eqb_eq in Hn end.
    match goal with IH : forall (w : Z -> bool) (k : Z), _ |- _ =>
      destruct (IH wins (k + 1)) as (n & Hr & Hcase); try lia; try assumption;
        [right; congruence|]
    end.
    exists n. split; [exact Hr|].
    destruct (Hmine min_ max_) as [[_ Hnone]|[Hin _]]; [|lia].
    destruct Hcase as [[Hn1 Hno]|(Hin & Hw & Hno)].
    + left. split; [exact Hn1|]. intros x Hx.
      destruct (Z.lt_ge_cases x max_); [apply Hnone|apply Hno]; lia.
    + right. split; [lia|]. split; [exact Hw|]. intros x Hx.
      destruct (Z.lt_ge_cases x max_); [apply Hnone|apply Hno]; lia.
  - match goal with Hn : (_ =? -1) = false |- _ => apply Z.eqb_neq in Hn end.
    exists (mine min_ max_). split; [reflexivity|].
    destruct (Hmine min_ max_) as [[Hm1 _]|(Hin & Hw & Hno)]; [contradiction|].
    right. split; [|split; assumption].
    assert (k + 1 <= limit / interval) by (apply Z.div_le_lower_bound; lia).
    nia.
Qed.

End LoopMore.

Section FindNonceMore.
Import Staker Supervisor.
Context {Block Proof : Type}.

(** X9. [findNonce] returns the answer of the first slice on which [mine]
    answers something else than -1: when [mine] misses on the slices 0 to
    [m - 1] and answers [n] on slice [m], below the 1500th, [findNonce]
    returns [n] after calling [mine] on the slices 0 to [m] in ascending
    order and reporting the upper end of each of the [m] missed slices. *)
Theorem findNonce_first_hit (mine : list byte -> list byte -> Z -> Z -> Z)
    (j : @STDJob Block Proof) (m : nat) :
  (m < 1500)%nat ->
  (forall k, (k < m)%nat ->
     mine (job_getHeader j) (target (attempt j))
          (Z.of_nat k * INTERVAL) ((Z.of_nat k + 1) * INTERVAL) = -1) ->
  mine (job_getHeader j) (target (attempt j))
       (Z.of_nat m * INTERVAL) ((Z.of_nat m + 1) * INTERVAL) <> -1 ->
  fst (findNonce mine j)
  = Some (mine (job_getHeader j) (target (attempt j))
               (Z.of_nat m * INTERVAL) ((Z.of_nat m + 1) * INTERVAL)) /\
  mine_calls (snd (findNonce mine j)) = slices INTERVAL 0 (m + 1) /\
  status_nonces (snd (findNonce mine j)) = map snd (slices INTERVAL 0 m).
Proof.
  intros Hm Hmiss Hhit.
  destruct (loop_first_hit 0xffffffff INTERVAL INTERVAL_pos
              (mine (job_getHeader j) (target (attempt j))) j
              0 INTERVAL None [] 0 m) as (Hr & Hc & Hs);
    try (rewrite ?INTERVAL_value; lia); try assumption.
  - intros k' Hk'. apply Hmiss. lia.
  - unfold findNonce. rewrite Hr, Hc, Hs.
    replace (m - 0 + 1)%nat with (m + 1)%nat by lia.
    replace (m - 0)%nat with m by lia.
    repeat split; reflexivity.
Qed.

(** X10. With a [mine] primitive that answers the lowest winning nonce of a
    slice, or -1 when the slice has none, [findNonce] returns the lowest
    winning nonce below 4294966500, or -1 when no nonce below 4294966500
    wins. *)
Theorem findNonce_least_winner (wins : Z -> bool)
    (mine : list byte -> list byte -> Z -> Z -> Z) (j : @STDJob Block Proof) :
  mine_least wins (mine (job_getHeader j) (target (attempt j))) ->
  exists n,
    fst (findNonce mine j) = Some n /\
    ((n = -1 /\ forall x, 0 <= x < 4294966500 -> wins x = false) \/
     (0 <= n < 4294966500 /\ wins n = true /\
      forall x, 0 <= x < n -> wins x = false)).
Proof.
  intros Hmine.
  destruct (loop_least 0xffffffff INTERVAL INTERVAL_pos wins
              (mine (job_getHeader j) (target (attempt j))) j
              0 INTERVAL None [] 0) as (n & Hr & Hcase);
    try (rewrite ?INTERVAL_value; lia); try assumption.
  exists n. split; [exact Hr|].
  rewrite INTERVAL_value in Hcase.
  change (0xffffffff / 2863311 * 2863311) with 4294966500 in Hcase.
  exact Hcase.
Qed.

End FindNonceMore.

Section FindNonceMoreSamples.
Import Staker Supervisor.

(** The nonce 5000000 lies in the second slice. *)
Lemma findNonce_first_hit_sample :
  fst (findNonce Sample2.mine_5000000 (Sample.job false false 0 0))
  = Some 5000000 /\
  mine_calls (snd (findNonce Sample2.mine_5000000 (Sample.job false false 0 0)))
  = [(0, 2863311); (2863311, 5726622)] /\
  status_nonces (snd (findNonce Sample2.mine_5000000
                                (Sample.job false false 0 0)))
  = [2863311].
Proof.
  destruct (findNonce_first_hit Sample2.mine_5000000
              (Sample.job false false 0 0) 1) as (Hr & Hc & Hs).
  - lia.
  - intros k Hk. assert (k = 0%nat) by lia. subst k. reflexivity.
  - vm_compute. discriminate.
  - rewrite Hr, Hc, Hs. repeat split; reflexivity.
Defined.

Lemma findNonce_least_winner_sample :
  exists n,
    fst (findNonce Sample2.mine_5000000 (Sample.job false false 0 0))
    = Some n /\
    ((n = -1 /\
      forall x, 0 <= x < 4294966500 -> (x =? 5000000) = false) \/
     (0 <= n < 4294966500 /\ (n =? 5000000) = true /\
      forall x, 0 <= x < n -> (x =? 5000000) = false)).
Proof.
  apply (findNonce_least_winner (fun x => x =? 5000000)
           Sample2.mine_5000000 (Sample.job false false 0 0)).
  intros a b. unfold Sample2.mine_5000000.
  destruct (Z.leb_spec a 5000000); destruct (Z.ltb_spec 5000000 b); cbn.
  - right. split; [lia|]. split; [reflexivity|].
    intros x Hx. apply Z.eqb_neq. lia.
  - left. split; [reflexivity|]. intros x Hx. apply Z.eqb_neq. lia.
  - left. split; [reflexivity|]. intros x Hx. apply Z.eqb_neq. lia.
  - left. split; [reflexivity|]. intros x Hx. apply Z.eqb_neq. lia.
Defined.

End FindNonceMoreSamples.

(** ** The stake search never mints *)

Section StakeMore.
Import Staker.
Context {Block Proof : Type} {P : Primitives}.

Local Abbreviation prevOut_undefined :=
  (TypeError "Cannot read property 'value' of undefined").

Lemma stake_loop_never_finds (fuel : nat) (self : @STDStaker Block Proof)
    (prev : ChainEntry.t) (coins : list Coin.t) (nTime : Z) (w : World) :
  match stake_loop fuel self prev None coins nTime w with
  | Found _ _ _ => False
  | Failed e w' => e = prevOut_undefined /\ trace w' = trace w
  | Spinning => True
  end.
Proof.
  revert nTime w; induction fuel as [|fuel IH]; intros nTime w; [exact I|].
  cbn [stake_loop].
  assert (Hscan : forall t w0,
    match stake_scan self prev None t coins w0 with
    | (Throw e, w') => e = prevOut_undefined /\ w' = w0 /\ coins <> []
    | (Ok (Some _), _) => False
    | (Ok None, w') => w' = w0 /\ coins = []
    end).
  { intros t w0. destruct coins; cbn; repeat split; congruence. }
  destruct (negb (nTime =? 0)); cbn [util_now].
  - destruct (nTime + 16 =? clock w (reads w)).
    + specialize (IH nTime (mkWorld (clock w) (S (reads w)) (trace w))).
      destruct (stake_loop fuel self prev None coins nTime _); auto.
    + match goal with |- context [stake_scan ?s ?p None ?t ?c ?w0] =>
        specialize (Hscan t w0); destruct (stake_scan s p None t c w0)
          as [[[c0|]|e] w'] end.
      * contradiction.
      * destruct Hscan as [-> _].
        match goal with |- context [stake_loop fuel ?s ?p None ?c ?t ?w0] =>
          specialize (IH t w0); destruct (stake_loop fuel s p None c t w0)
        end; auto.
      * destruct Hscan as (-> & -> & _). now split.
  - match goal with |- context [stake_scan ?s ?p None ?t ?c ?w0] =>
      specialize (Hscan t w0); destruct (stake_scan s p None t c w0)
        as [[[c0|]|e] w'] end.
    + contradiction.
    + destruct Hscan as [-> _].
      match goal with |- context [stake_loop fuel ?s ?p None ?c ?t ?w0] =>
        specialize (IH t w0); destruct (stake_loop fuel s p None c t w0)
      end; auto.
    + destruct Hscan as (-> & -> & _). now split.
Qed.

(** X11. The stake search never returns a block: for every staker, tip,
    wallet, clock and job, and any number of iterations, [doStake] either
    is still in its loop or has thrown the [TypeError] of the read of
    [prevOut.value]; in that case the job is as it was (not committed by
    the search) and the kernel was never called. *)
Theorem doStake_never_mints (fuel : nat) (self : @STDStaker Block Proof)
    (j : STDJob) (w : World) :
  match doStake fuel self j w with
  | Done (Ok _) _ _ => False
  | Done (Throw e) j' w' =>
      e = prevOut_undefined /\ j' = j /\ trace w' = trace w
  | OutOfFuel => True
  end.
Proof.
  unfold doStake.
  pose proof (stake_loop_never_finds fuel self (tip (chain self))
                (coins (wallet self)) 0 w) as H.
  destruct (stake_loop fuel self (tip (chain self)) None
              (coins (wallet self)) 0 w); [contradiction| |exact I].
  destruct H as [-> Ht]. now repeat split.
Qed.

End StakeMore.

(** ** The asynchronous search *)

Section AsyncLoopFacts.
Import Staker Supervisor.
Context {Block Proof : Type}.
Variable strikes : nat -> bool.
Variables limit interval : Z.
Hypothesis interval_pos : 0 < interval.

Local Abbreviation calls_of st := (mine_calls (trace (aworld st))).

(** Started on slice [k] with a live job, with [mine] missing on the slices
    [k] to [m - 1] while nothing destroys the job, the loop ends at slice
    [m] when [mine] answers there or the job is destroyed during that
    call: it returns the answer of [mine] for slice [m]. *)
Lemma async_loop_ends (mine : Z -> Z -> Z) (a b : Z) (nonce : option Z)
    (st : @Async Block Proof) :
  forall (k m : nat),
    a = Z.of_nat k * interval -> b = (Z.of_nat k + 1) * interval ->
    (k <= m)%nat -> (Z.of_nat m + 1) * interval <= limit ->
    destroyed (ajob st) = false ->
    (forall k', (k <= k' < m)%nat ->
       mine (Z.of_nat k' * interval) ((Z.of_nat k' + 1) * interval) = -1) ->
    (forall i, (i < m - k)%nat -> strikes (awaits st + i) = false) ->
    mine (Z.of_nat m * interval) ((Z.of_nat m + 1) * interval) <> -1 \/
    strikes (awaits st + (m - k)) = true ->
    let r := findNonceAsync_loop strikes limit interval interval_pos
               mine a b nonce st in
    fst r = Some (mine (Z.of_nat m * interval) ((Z.of_nat m + 1) * interval)) /\
    ajob (snd r)
    = (if strikes (awaits st + (m - k)) then set_destroyed true (ajob st)
       else ajob st) /\
    awaits (snd r) = (awaits st + (m - k) + 1)%nat /\
    calls_of (snd r) = calls_of st ++ slices interval (Z.of_nat k) (m - k + 1) /\
    clock (aworld (snd r)) = clock (aworld st) /\
    reads (aworld (snd r)) = reads (aworld st).
Proof.
  funelim (findNonceAsync_loop strikes limit interval interval_pos
             mine a b nonce st);
    intros k m Ha Hb Hkm Hm Hlive Hmiss Hquiet Hend; cbv zeta.
  - exfalso. nia.
  - (* a hit *)
    match goal with Hn : (_ =? -1) = false |- _ =>
      apply Z.eqb_neq in Hn; rename Hn into Hne end.
    assert (Hk : k = m).
    { destruct (Nat.eq_dec k m) as [E|E]; [exact E|].
      exfalso. subst. apply Hne. apply Hmiss. lia. }
    subst. replace (m - m)%nat with 0%nat by lia.
    rewrite Nat.add_0_r. cbn [fst snd after_mine await log ajob awaits aworld
                              emit trace clock reads].
    rewrite mine_calls_app. cbn.
    repeat split; try reflexivity; lia.
  - (* a miss, and the job is destroyed *)
    match goal with Hn : (_ =? -1) = true |- _ =>
      apply Z.eqb_eq in Hn; rename Hn into Hm1 end.
    match goal with Hd : destroyed _ = true |- _ => rename Hd into Hdead end.
    assert (Hs : strikes (awaits st) = true).
    { apply Bool.not_false_is_true. intros E. revert Hdead.
      unfold after_mine, await, log. cbn [ajob awaits aworld].
      rewrite E, Hlive. discriminate. }
    assert (Hk : k = m).
    { destruct (Nat.eq_dec k m) as [E|E]; [exact E|].
      exfalso. specialize (Hquiet 0%nat ltac:(lia)).
      rewrite Nat.add_0_r in Hquiet. congruence. }
    subst. replace (m - m)%nat with 0%nat by lia.
    rewrite Nat.add_0_r. cbn [fst snd after_mine await log ajob awaits aworld
                              emit trace clock reads].
    rewrite mine_calls_app, Hs, Hm1. cbn.
    repeat split; try reflexivity; lia.
  - (* a miss, and the job is alive *)
    match goal with Hn : (_ =? -1) = true |- _ =>
      apply Z.eqb_eq in Hn; rename Hn into Hm1 end.
    match goal with Hd : destroyed (ajob (after_mine _ _ _ _)) = false |- _ =>
      rename Hd into Halive end.
    assert (Hs : strikes (awaits st) = false).
    { apply Bool.not_true_is_false. intros E. revert Halive.
      unfold after_mine, await, log. cbn [ajob awaits aworld].
      rewrite E. unfold set_destroyed. cbn. discriminate. }
    assert (Hlt : (k < m)%nat).
    { destruct (Nat.eq_dec k m) as [E|E]; [|lia].
      exfalso. subst. replace (m - m)%nat with 0%nat in Hend by lia.
      rewrite Nat.add_0_r in Hend. destruct Hend; congruence. }
    match goal with IH : forall k m : nat, _ |- _ =>
      specialize (IH (S k) m) end.
    cbn [status after_mine await log ajob awaits aworld emit trace clock reads]
      in *.
    rewrite Hs in *.
    match goal with IH : _ -> _ |- _ =>
      destruct IH as (Hr & Hj & Hw & Hc & Hcl & Hrd); try lia; try assumption
    end.
    + intros k' Hk'. apply Hmiss. lia.
    + intros i Hi. replace (S (awaits st) + i)%nat with (awaits st + S i)%nat
        by lia. apply Hquiet. lia.
    + replace (S (awaits st) + (m - S k))%nat with (awaits st + (m - k))%nat
        by lia. exact Hend.
    + replace (S (awaits st) + (m - S k))%nat with (awaits st + (m - k))%nat
        in * by lia.
      rewrite Hr, Hj, Hw, Hc, Hcl, Hrd.
      rewrite !mine_calls_app. cbn [mine_calls flat_map app].
      replace (m - k + 1)%nat with (S (m - S k + 1)) by lia.
      cbn [slices]. rewrite <- !app_assoc. cbn [app].
      replace (Z.of_nat (S k)) with (Z.of_nat k + 1) by lia.
      subst. repeat split; try reflexivity; lia.
Qed.

End AsyncLoopFacts.

Section MineAsyncFacts.
Import Staker Supervisor.
Context {Block Proof : Type}.
Variable strikes : nat -> bool.

Local Abbreviation calls_of st := (mine_calls (trace (aworld st))).
Local Abbreviation started st :=
  (set_start (clock (aworld st) (reads (aworld st))) (ajob st)).

(** X12. Cancellation between slices.  With a worker pool, a live job, and
    workers that find nothing in the slices 0 to [m] (below the 1500th):
    when the job is destroyed while the search waits for slice [m], and not
    before, [mineAsync] returns no block after exactly the [m + 1] calls of
    the workers for the slices 0 to [m]; the job is left destroyed and
    otherwise as it was when the search started: not committed by the
    search, extra nonces unchanged. *)
Theorem mineAsync_cancelled (fuel m : nat)
    (workers mine : list byte -> list byte -> Z -> Z -> Z)
    (st : @Async Block Proof) :
  destroyed (ajob st) = false -> (m < 1500)%nat ->
  (forall k, (k <= m)%nat ->
     workers (job_getHeader (ajob st)) (target (attempt (ajob st)))
             (Z.of_nat k * INTERVAL) ((Z.of_nat k + 1) * INTERVAL) = -1) ->
  (forall i, (i < m)%nat -> strikes (awaits st + i) = false) ->
  strikes (awaits st + m) = true ->
  exists st',
    mineAsync strikes (S fuel) (Some workers) mine st = Returned (Ok None) st' /\
    ajob st' = set_destroyed true (started st) /\
    awaits st' = (awaits st + m + 2)%nat /\
    calls_of st' = calls_of st ++ slices INTERVAL 0 (m + 1).
Proof.
  intros Hlive Hm Hmiss Hquiet Hstrike.
  unfold mineAsync. cbn [util_now mineAsync_loop findNonceAsync].
  destruct (async_loop_ends strikes 0xffffffff INTERVAL INTERVAL_pos
              (workers (job_getHeader (started st))
                       (target (attempt (started st))))
              0 INTERVAL None
              (mkAsync (started st) (awaits st)
                       (mkWorld (clock (aworld st)) (S (reads (aworld st)))
                                (trace (aworld st))))
              0 m) as (Hr & Hj & Hw & Hc & _);
    try (rewrite ?INTERVAL_value; lia); try assumption.
  - intros k' Hk'. apply Hmiss. lia.
  - cbn [awaits]. intros i Hi. apply Hquiet. lia.
  - right. cbn [awaits]. now replace (m - 0)%nat with m by lia.
  - cbn [awaits ajob aworld trace] in Hj, Hw, Hc.
    replace (m - 0)%nat with m in * by lia. rewrite Hstrike in Hj.
    cbn [ajob awaits aworld].
    match goal with |- context [findNonceAsync_loop ?s ?l ?i ?p ?f ?a ?b ?n ?x] =>
      destruct (findNonceAsync_loop s l i p f a b n x) as [r st1] end.
    cbn [fst snd] in *. subst r.
    change (job_getHeader (started st)) with (job_getHeader (ajob st)).
    change (target (attempt (started st))) with (target (attempt (ajob st))).
    rewrite (Hmiss m (Nat.le_refl m)). cbn [negb Z.eqb].
    change (-1 =? -1) with true. cbn [negb].
    unfold await at 1. rewrite Hj.
    assert (Hd : destroyed
                   (ajob (await strikes st1)) = true).
    { unfold await. cbn [ajob]. rewrite Hj. now destruct (strikes (awaits st1)). }
    rewrite Hd. eexists. split; [reflexivity|].
    unfold await. cbn [ajob awaits aworld]. rewrite Hj, Hw, Hc.
    repeat split; try lia.
    now destruct (strikes (awaits st + m + 1)).
Qed.

(** X13. A nonce found wins over destruction.  With a worker pool and a
    live, uncommitted job: when the workers miss on the slices 0 to
    [m - 1], during which nothing destroys the job, and answer a nonce on
    slice [m], [mineAsync] commits and returns the block the template makes
    of that nonce, also when the job is destroyed while slice [m] is
    searched or while the result is awaited; the job is left committed,
    and destroyed exactly in those cases. *)
Theorem mineAsync_commits_found_nonce (fuel m : nat)
    (workers mine : list byte -> list byte -> Z -> Z -> Z)
    (st : @Async Block Proof) :
  let j := ajob st in
  let n := workers (job_getHeader j) (target (attempt j))
                   (Z.of_nat m * INTERVAL) ((Z.of_nat m + 1) * INTERVAL) in
  committed j = false -> destroyed j = false -> (m < 1500)%nat ->
  (forall k, (k < m)%nat ->
     workers (job_getHeader j) (target (attempt j))
             (Z.of_nat k * INTERVAL) ((Z.of_nat k + 1) * INTERVAL) = -1) ->
  (forall i, (i < m)%nat -> strikes (awaits st + i) = false) ->
  n <> -1 ->
  exists st',
    mineAsync strikes (S fuel) (Some workers) mine st
    = Returned
        (Ok (Some (commit (attempt j)
                     (getProof (attempt j) (nonce1 j) (nonce2 j)
                               (ts (attempt j)) n))))
        st' /\
    committed (ajob st') = true /\
    destroyed (ajob st')
    = strikes (awaits st + m) || strikes (awaits st + m + 1) /\
    calls_of st' = calls_of st ++ slices INTERVAL 0 (m + 1).
Proof.
  intros j n Hc Hlive Hm Hmiss Hquiet Hhit. subst j n.
  unfold mineAsync. cbn [util_now mineAsync_loop findNonceAsync].
  destruct (async_loop_ends strikes 0xffffffff INTERVAL INTERVAL_pos
              (workers (job_getHeader (started st))
                       (target (attempt (started st))))
              0 INTERVAL None
              (mkAsync (started st) (awaits st)
                       (mkWorld (clock (aworld st)) (S (reads (aworld st)))
                                (trace (aworld st))))
              0 m) as (Hr & Hj & Hw & Hcs & _);
    try (rewrite ?INTERVAL_value; lia); try assumption.
  - intros k' Hk'. apply Hmiss. lia.
  - cbn [awaits]. intros i Hi. apply Hquiet. lia.
  - left. exact Hhit.
  - cbn [awaits ajob aworld trace] in Hj, Hw, Hcs.
    replace (m - 0)%nat with m in * by lia.
    cbn [ajob awaits aworld].
    match goal with |- context [findNonceAsync_loop ?s ?l ?i ?p ?f ?a ?b ?n ?x] =>
      destruct (findNonceAsync_loop s l i p f a b n x) as [r st1] end.
    cbn [fst snd] in *. subst r.
    change (job_getHeader (started st)) with (job_getHeader (ajob st)).
    change (target (attempt (started st))) with (target (attempt (ajob st))).
    destruct (Z.eqb_spec
                (workers (job_getHeader (ajob st)) (target (attempt (ajob st)))
                   (Z.of_nat m * INTERVAL) ((Z.of_nat m + 1) * INTERVAL))
                (-1)) as [E|_]; [contradiction|].
    cbn [negb]. unfold await, job_commit. cbn [ajob awaits aworld].
    rewrite Hj, Hw.
    destruct (strikes (awaits st + m)); destruct (strikes (awaits st + m + 1));
      cbn; rewrite Hc; cbn; eexists; (split; [reflexivity|]);
      cbn; rewrite Hcs; repeat split; exact Hlive.
Qed.

(** X14. Without a worker pool the search is not cancelled between slices:
    when the in-process [mine] finds nothing on any of the 1500 slices and
    the job was destroyed before the search or is destroyed while its result
    is awaited, [mineAsync] still calls [mine] on all 1500 slices before it
    returns no block. *)
Theorem mineAsync_without_workers_sweeps (fuel : nat)
    (mine : list byte -> list byte -> Z -> Z -> Z) (st : @Async Block Proof) :
  (forall k, 0 <= k -> (k + 1) * INTERVAL <= 0xffffffff ->
     mine (job_getHeader (ajob st)) (target (attempt (ajob st)))
          (k * INTERVAL) ((k + 1) * INTERVAL) = -1) ->
  destroyed (ajob st) = true \/ strikes (awaits st) = true ->
  exists st',
    mineAsync strikes (S fuel) None mine st = Returned (Ok None) st' /\
    ajob st' = set_destroyed true (started st) /\
    awaits st' = S (awaits st) /\
    calls_of st' = calls_of st ++ slices INTERVAL 0 1500.
Proof.
  intros Hmiss Hdead.
  unfold mineAsync. cbn [util_now mineAsync_loop findNonceAsync].
  destruct (loop_exhausts 0xffffffff INTERVAL INTERVAL_pos
              (mine (job_getHeader (started st)) (target (attempt (started st))))
              (started st) 0 INTERVAL None [] 0) as [Hr Hc];
    try (rewrite ?INTERVAL_value; lia).
  - intros k' Hk' Hl. apply Hmiss; lia.
  - unfold findNonce. cbn [ajob].
    match goal with |- context [findNonce_loop ?l ?i ?p ?f ?jj ?a ?b ?n ?x] =>
      destruct (findNonce_loop l i p f jj a b n x) as [r tr] end.
    cbn [fst snd] in *. subst r. cbn [negb Z.eqb].
    change (-1 =? -1) with true. cbn [negb].
    unfold await. cbn [ajob awaits aworld trace].
    assert (Hd : destroyed
                   (if strikes (awaits st)
                    then set_destroyed true (started st) else started st)
                 = true).
    { destruct (strikes (awaits st)); [reflexivity|].
      destruct Hdead as [H|H]; [exact H|discriminate H]. }
    rewrite Hd. eexists. split; [reflexivity|].
    cbn [ajob awaits aworld trace]. rewrite mine_calls_app, Hc.
    rewrite INTERVAL_value. cbn [mine_calls flat_map app].
    repeat split.
    destruct (strikes (awaits st)); [reflexivity|].
    destruct Hdead as [H|H]; [|discriminate H].
    unfold set_destroyed, set_start in *. cbn in *. now rewrite H.
Qed.

End MineAsyncFacts.

Section MineAsyncSamples.
Import Staker Supervisor.

(** The job is destroyed while the first slice is searched. *)
Lemma mineAsync_cancelled_sample :
  exists st',
    mineAsync (fun n => Nat.eqb n 0) 1 (Some Sample2.mine_nothing)
              Sample2.mine_nothing (Sample2.async false)
    = Returned (Ok None) st' /\
    ajob st' = Sample.job true false 0 0 /\
    awaits st' = 2%nat /\
    mine_calls (trace (aworld st')) = [(0, 2863311)].
Proof.
  destruct (mineAsync_cancelled (fun n => Nat.eqb n 0) 0 0
              Sample2.mine_nothing Sample2.mine_nothing (Sample2.async false))
    as (st' & H & Hj & Hw & Hc);
    [reflexivity | lia | reflexivity | intros i Hi; lia | reflexivity |].
  exists st'. split; [exact H|]. rewrite Hj, Hw, Hc. repeat split.
Defined.

(** The job is destroyed while the second slice is searched; the workers
    find the nonce 5000000 there. *)
Lemma mineAsync_commits_found_nonce_sample :
  exists st',
    mineAsync (fun n => Nat.eqb n 1) 1 (Some Sample2.mine_5000000)
              Sample2.mine_nothing (Sample2.async false)
    = Returned
        (Ok (Some (AbstractBlock.mk 7 Sample.hash_11 Sample.hash_aa
                     Sample.stake_time Sample.easy_bits 5000000
                     false None None)))
        st' /\
    committed (ajob st') = true /\ destroyed (ajob st') = true.
Proof.
  destruct (mineAsync_commits_found_nonce (fun n => Nat.eqb n 1) 0 1
              Sample2.mine_5000000 Sample2.mine_nothing (Sample2.async false))
    as (st' & H & Hc & Hd & _).
  - reflexivity.
  - reflexivity.
  - lia.
  - intros k Hk. assert (k = 0%nat) by lia. subst k. reflexivity.
  - intros i Hi. assert (i = 0%nat) by lia. subst i. reflexivity.
  - vm_compute. discriminate.
  - exists st'. split; [exact H|]. split; [exact Hc|]. rewrite Hd. reflexivity.
Defined.

(** A destroyed job and no worker pool: 1500 calls for nothing. *)
Lemma mineAsync_without_workers_sweeps_sample :
  exists st',
    mineAsync (fun _ => false) 1 None Sample2.mine_nothing (Sample2.async true)
    = Returned (Ok None) st' /\
    List.length (mine_calls (trace (aworld st'))) = 1500%nat.
Proof.
  destruct (mineAsync_without_workers_sweeps (fun _ => false) 0
              Sample2.mine_nothing (Sample2.async true))
    as (st' & H & _ & _ & Hc).
  - intros k _ _. reflexivity.
  - left. reflexivity.
  - exists st'. split; [exact H|]. rewrite Hc. reflexivity.
Defined.

End MineAsyncSamples.

(** ** Parsing a header, and the cached identity hash *)

Section ParseFacts.
Import Bytes Wire AbstractBlock.

(** Encoding undoes decoding, on as many bytes as were decoded. *)
Lemma le_encode_decode (bs : list byte) :
  le_encode (List.length bs) (le_decode bs) = bs.
Proof.
  induction bs as [|b bs IH]; [reflexivity|].
  cbn [le_decode List.length le_encode].
  pose proof (Z_of_byte_range b) as Hb.
  replace ((Z_of_byte b + 256 * le_decode bs) / 256) with (le_decode bs)
    by (apply (Z.div_unique _ 256 _ (Z_of_byte b)); lia).
  rewrite IH. f_equal.
  unfold byte_of_Z.
  replace ((Z_of_byte b + 256 * le_decode bs) mod 256)
    with (Z_of_byte b mod 256)
    by (now rewrite (Z.mul_comm 256), Z.mod_add by lia).
  apply byte_of_Z_of_byte.
Qed.

Lemma firstn_plus {A : Type} (a b : nat) (l : list A) :
  firstn (a + b) l = firstn a l ++ firstn b (skipn a l).
Proof.
  revert l; induction a as [|a IH]; intros l; [reflexivity|].
  destruct l as [|x l]; cbn [Nat.add firstn skipn app].
  - now rewrite firstn_nil.
  - now rewrite IH.
Qed.

Lemma readU32_enough (bs : list byte) :
  (4 <= List.length bs)%nat ->
  readU32 (mkReader bs)
  = Ok (le_decode (firstn 4 bs), mkReader (skipn 4 bs)).
Proof.
  intros Hn. unfold readU32, readBytes. cbn [left].
  apply Nat.leb_le in Hn. now rewrite Hn.
Qed.

Lemma readU32_short (bs : list byte) :
  (List.length bs < 4)%nat -> readU32 (mkReader bs) = Throw ReadError.
Proof.
  intros Hn. unfold readU32, readBytes. cbn [left].
  apply Nat.leb_gt in Hn. now rewrite Hn.
Qed.

Lemma readHash_enough (bs : list byte) :
  (32 <= List.length bs)%nat ->
  readHash_hex (mkReader bs)
  = Ok (Hex.encode (firstn 32 bs), mkReader (skipn 32 bs)).
Proof.
  intros Hn. unfold readHash_hex, readBytes. cbn [left].
  apply Nat.leb_le in Hn. now rewrite Hn.
Qed.

Lemma readHash_short (bs : list byte) :
  (List.length bs < 32)%nat -> readHash_hex (mkReader bs) = Throw ReadError.
Proof.
  intros Hn. unfold readHash_hex, readBytes. cbn [left].
  apply Nat.leb_gt in Hn. now rewrite Hn.
Qed.

(** What [fromHead] makes of 80 bytes or more: the six fields are read off
    the first 80 bytes, which are what the block serialises to. *)
Lemma fromHead_enough (self : t) (data : list byte) :
  (80 <= List.length data)%nat ->
  exists b,
    fromHead self data = (Ok b, b) /\ well_formed b /\
    toHead b = Ok (firstn 80 data) /\
    mutable b = mutable self /\ _hash b = _hash self /\
    _hhash b = _hhash self.
Proof.
  intros Hlen. unfold fromHead, readHead, new_reader.
  set (d1 := skipn 4 data).
  set (d2 := skipn 32 d1).
  set (d3 := skipn 32 d2).
  set (d4 := skipn 4 d3).
  set (d5 := skipn 4 d4).
  assert (L1 : List.length d1 = (List.length data - 4)%nat)
    by apply length_skipn.
  assert (L2 : List.length d2 = (List.length d1 - 32)%nat)
    by apply length_skipn.
  assert (L3 : List.length d3 = (List.length d2 - 32)%nat)
    by apply length_skipn.
  assert (L4 : List.length d4 = (List.length d3 - 4)%nat)
    by apply length_skipn.
  assert (L5 : List.length d5 = (List.length d4 - 4)%nat)
    by apply length_skipn.
  rewrite (readU32_enough data) by lia. fold d1.
  rewrite (readHash_enough d1) by lia. fold d2.
  rewrite (readHash_enough d2) by lia. fold d3.
  rewrite (readU32_enough d3) by lia. fold d4.
  rewrite (readU32_enough d4) by lia. fold d5.
  rewrite (readU32_enough d5) by lia.
  eexists. split; [reflexivity|].
  assert (F4 : forall l : list byte, (4 <= List.length l)%nat ->
                 List.length (firstn 4 l) = 4%nat)
    by (intros l Hl; rewrite length_firstn; lia).
  assert (F32 : forall l : list byte, (32 <= List.length l)%nat ->
                  List.length (firstn 32 l) = 32%nat)
    by (intros l Hl; rewrite length_firstn; lia).
  assert (U : forall l : list byte, (4 <= List.length l)%nat ->
                u32 (le_decode (firstn 4 l))).
  { intros l Hl. pose proof (le_decode_bound (firstn 4 l)) as Hb.
    rewrite (F4 l Hl) in Hb. exact Hb. }
  assert (E : forall l : list byte, (4 <= List.length l)%nat ->
                le_encode 4 (le_decode (firstn 4 l)) = firstn 4 l).
  { intros l Hl. rewrite <- (F4 l Hl) at 1. apply le_encode_decode. }
  split.
  { unfold well_formed.
    cbn [version ts bits nonce prevBlock merkleRoot set_version set_prevBlock
         set_merkleRoot set_ts set_bits set_nonce].
    repeat split; try (apply U; lia); try (apply hash_bytes_encode, F32; lia). }
  split; [|repeat split].
  rewrite (toHead_bytes _ (firstn 32 d1) (firstn 32 d2));
    cbn [prevBlock merkleRoot set_version set_prevBlock set_merkleRoot
         set_ts set_bits set_nonce];
    try (apply hash_bytes_encode, F32; lia); try (apply F32; lia).
  unfold header_bytes.
  cbn [version ts bits nonce set_version set_prevBlock set_merkleRoot
       set_ts set_bits set_nonce].
  rewrite !E by lia. f_equal.
  change 80%nat with (4 + (32 + (32 + (4 + (4 + 4)))))%nat.
  rewrite !firstn_plus. reflexivity.
Qed.

Ltac short_read :=
  cbn [fst snd version prevBlock merkleRoot ts bits nonce mutable _hash
       _hhash set_version set_prevBlock set_merkleRoot set_ts set_bits
       set_nonce];
  repeat match goal with
  | |- context [Nat.leb ?a ?b] => destruct (Nat.leb_spec a b); try lia
  end;
  repeat split; reflexivity.

(** The block after [fromHead] on fewer than 80 bytes: the call throws at
    the first field that is not whole, with the fields before it
    assigned. *)
Lemma fromHead_short (self : t) (data : list byte) :
  (List.length data < 80)%nat ->
  let n := List.length data in
  let after := snd (fromHead self data) in
  fst (fromHead self data) = Throw ReadError /\
  version after
  = (if (4 <=? n)%nat then le_decode (firstn 4 data) else version self) /\
  prevBlock after
  = (if (36 <=? n)%nat then Hex.encode (firstn 32 (skipn 4 data))
     else prevBlock self) /\
  merkleRoot after
  = (if (68 <=? n)%nat then Hex.encode (firstn 32 (skipn 36 data))
     else merkleRoot self) /\
  ts after
  = (if (72 <=? n)%nat then le_decode (firstn 4 (skipn 68 data))
     else ts self) /\
  bits after
  = (if (76 <=? n)%nat then le_decode (firstn 4 (skipn 72 data))
     else bits self) /\
  nonce after = nonce self /\
  mutable after = mutable self /\ _hash after = _hash self /\
  _hhash after = _hhash self.
Proof.
  intros Hlen n after. subst after. unfold fromHead, readHead, new_reader.
  assert (Hskip : forall k, List.length (skipn k data) = (n - k)%nat)
    by (intros k; apply length_skipn).
  destruct (Nat.leb_spec 4 n) as [H1|H1].
  2: { rewrite readU32_short by exact H1. short_read. }
  rewrite readU32_enough by exact H1.
  destruct (Nat.leb_spec 36 n) as [H2|H2].
  2: { rewrite readHash_short by (rewrite Hskip; lia). short_read. }
  rewrite readHash_enough by (rewrite Hskip; lia).
  rewrite skipn_skipn. cbn [Nat.add].
  destruct (Nat.leb_spec 68 n) as [H3|H3].
  2: { rewrite readHash_short by (rewrite Hskip; lia). short_read. }
  rewrite readHash_enough by (rewrite Hskip; lia).
  rewrite skipn_skipn. cbn [Nat.add].
  destruct (Nat.leb_spec 72 n) as [H4|H4].
  2: { rewrite readU32_short by (rewrite Hskip; lia). short_read. }
  rewrite readU32_enough by (rewrite Hskip; lia).
  rewrite skipn_skipn. cbn [Nat.add].
  destruct (Nat.leb_spec 76 n) as [H5|H5].
  2: { rewrite readU32_short by (rewrite Hskip; lia). short_read. }
  rewrite readU32_enough by (rewrite Hskip; lia).
  rewrite skipn_skipn. cbn [Nat.add].
  rewrite readU32_short by (rewrite Hskip; lia). short_read.
Qed.

Lemma fromHead_needs_80 (self b : t) (data : list byte) :
  fst (fromHead self data) = Ok b -> (80 <= List.length data)%nat.
Proof.
  intros H. destruct (Nat.lt_ge_cases (List.length data) 80) as [Hs|Hs];
    [|exact Hs].
  destruct (fromHead_short self data Hs) as [Ht _].
  rewrite Ht in H. discriminate H.
Qed.

(** [fromHead] never touches the flag or the two cached values, whether it
    returns or throws. *)
Lemma fromHead_keeps_caches (self : t) (data : list byte) :
  mutable (snd (fromHead self data)) = mutable self /\
  _hash (snd (fromHead self data)) = _hash self /\
  _hhash (snd (fromHead self data)) = _hhash self.
Proof.
  destruct (Nat.lt_ge_cases (List.length data) 80) as [Hs|Hs].
  - destruct (fromHead_short self data Hs)
      as (_ & _ & _ & _ & _ & _ & _ & Hm & Hh & Hx).
    now repeat split.
  - destruct (fromHead_enough self data Hs) as (b & Hb & _ & _ & Hm & Hh & Hx).
    rewrite Hb. now repeat split.
Qed.

(** X15. Parsing then serialising.  On a buffer of at least 80 bytes
    [fromHead] succeeds for every block it is called on; the block it
    returns, which is the block it was called on, has its four integers
    below 2^32 and two well-formed hashes, serialises with [toHead] to the
    first 80 bytes of the buffer, what follows them being ignored, and
    keeps its flag and its two cached values. *)
Theorem fromHead_then_toHead (self : t) (data : list byte) :
  (80 <= List.length data)%nat ->
  exists b,
    fromHead self data = (Ok b, b) /\ well_formed b /\
    toHead b = Ok (firstn 80 data) /\
    mutable b = mutable self /\ _hash b = _hash self /\
    _hhash b = _hhash self.
Proof.
  exact (fromHead_enough self data).
Qed.

(** X16. A buffer shorter than 80 bytes is refused, and the block is left
    partly overwritten.  [fromHead] on [n < 80] bytes throws the error of
    the reader at the first field that is not whole; the fields before it
    are assigned already: the version if [n >= 4], the previous block if
    [n >= 36], the merkle root if [n >= 68], the time if [n >= 72], the
    bits if [n >= 76].  The other fields, the nonce among them, the flag
    and the two cached values are as they were. *)
Theorem fromHead_short_input (self : t) (data : list byte) :
  (List.length data < 80)%nat ->
  let n := List.length data in
  let after := snd (fromHead self data) in
  fst (fromHead self data) = Throw ReadError /\
  version after
  = (if (4 <=? n)%nat then le_decode (firstn 4 data) else version self) /\
  prevBlock after
  = (if (36 <=? n)%nat then Hex.encode (firstn 32 (skipn 4 data))
     else prevBlock self) /\
  merkleRoot after
  = (if (68 <=? n)%nat then Hex.encode (firstn 32 (skipn 36 data))
     else merkleRoot self) /\
  ts after
  = (if (72 <=? n)%nat then le_decode (firstn 4 (skipn 68 data))
     else ts self) /\
  bits after
  = (if (76 <=? n)%nat then le_decode (firstn 4 (skipn 72 data))
     else bits self) /\
  nonce after = nonce self /\
  mutable after = mutable self /\ _hash after = _hash self /\
  _hhash after = _hhash self.
Proof.
  exact (fromHead_short self data).
Qed.

End ParseFacts.

Section HashFacts.
Import Bytes Wire AbstractBlock BlockHash.
Context {P : Primitives}.
Variable scrypt_derive : list byte -> list byte.

Lemma toHead_refresh (self : t) : toHead (refresh self) = toHead self.
Proof. reflexivity. Qed.

Lemma hash_caches (self s1 : t) (d : list byte) :
  mutable self = false ->
  hash scrypt_derive None self = (Ok (Raw d), s1) ->
  _hash s1 = Some d /\ mutable s1 = false.
Proof.
  intros Hm. unfold hash. rewrite Hm.
  destruct (_hash self) as [c|] eqn:Hc.
  - intros H. injection H as <- <-. now split.
  - destruct (toHead self) as [bytes|e]; cbn [JS.bind]; intros H;
      [|discriminate H].
    injection H as <- <-. now split.
Qed.

(** X17. The cached digest outlives a change of the header.  Once [hash()]
    has returned a digest on a block that is not mutable, [fromHead] on the
    same block changes the header but not the answer: [hash()] still returns
    the digest of the header the block had before.  Only after [refresh()]
    does it return the digest of the 80 bytes that were parsed. *)
Theorem hash_outlives_fromHead (self s1 s2 : t) (d data : list byte) :
  mutable self = false ->
  hash scrypt_derive None self = (Ok (Raw d), s1) ->
  fst (fromHead s1 data) = Ok s2 ->
  hash scrypt_derive None s2 = (Ok (Raw d), s2) /\
  fst (hash scrypt_derive None (refresh s2))
  = Ok (Raw (digest_of scrypt_derive s2 (firstn 80 data))).
Proof.
  intros Hm Hh Hf.
  destruct (hash_caches self s1 d Hm Hh) as [Hd Hm1].
  pose proof (fromHead_needs_80 _ _ _ Hf) as Hlen.
  destruct (fromHead_enough s1 data Hlen) as (b & Hb & _ & Hbytes & Hmb & Hhb & _).
  rewrite Hb in Hf. cbn [fst] in Hf. injection Hf as <-.
  split.
  - unfold hash. rewrite Hhb, Hd. reflexivity.
  - unfold hash. change (_hash (refresh b)) with (@None (list byte)).
    rewrite toHead_refresh, Hbytes. cbn [JS.bind].
    change (mutable (refresh b)) with (mutable b). rewrite Hmb, Hm1.
    reflexivity.
Qed.

Lemma enc_not_hex {A : Type} (enc : string) (x y : A) :
  enc <> "hex"%string ->
  match enc with "hex"%string => x | _ => y end = y.
Proof.
  intros Hne.
  repeat (match goal with
          | |- context [match ?s with EmptyString => _ | String _ _ => _ end] =>
              destruct s as [|[[] [] [] [] [] [] [] []] ?]
          end; try reflexivity).
  contradiction Hne. reflexivity.
Qed.

Lemma set_hhash_coherent (c : list byte) (s : t) :
  _hash s = Some c -> coherent (set_hhash (Some (Hex.encode c)) s).
Proof.
  intros Hs hex Hhex. exists c. split; [exact Hs|].
  unfold truthy_hex, set_hhash in Hhex. cbn [_hhash] in Hhex.
  destruct (Hex.encode c); [discriminate Hhex|congruence].
Qed.

Lemma set_hash_coherent (c : list byte) (s : t) :
  coherent s -> _hash s = None -> coherent (set_hash (Some c) s).
Proof.
  intros Hc Hn hex Hhex. destruct (Hc hex Hhex) as (digest & Hd & _).
  congruence.
Qed.

(** With coherent caches and no cached digest there is no cached hex
    string either. *)
Lemma coherent_no_digest (s : t) :
  coherent s -> _hash s = None -> truthy_hex s = None.
Proof.
  intros Hc Hn. destruct (truthy_hex s) as [hex|] eqn:E; [|reflexivity].
  destruct (Hc hex E) as (digest & Hd & _). congruence.
Qed.

(** X18. The two caches stay coherent: a new block has coherent caches, and
    [refresh], [fromHead], whether it returns or throws, and [hash], with
    any encoding, keep them so. *)
Theorem hash_cache_coherent :
  coherent create /\
  (forall self, coherent (refresh self)) /\
  (forall self data,
     coherent self -> coherent (snd (fromHead self data))) /\
  (forall enc self,
     coherent self -> coherent (snd (hash scrypt_derive enc self))).
Proof.
  split; [intros hex H; discriminate H|].
  split; [intros self hex H; discriminate H|].
  split.
  - intros self data Hc hex Hhex.
    destruct (fromHead_keeps_caches self data) as (_ & Hh & Hx).
    unfold truthy_hex in Hhex. rewrite Hx in Hhex. rewrite Hh.
    apply (Hc hex). exact Hhex.
  - intros enc self Hc. unfold hash.
    destruct (_hash self) as [c|] eqn:Hcached.
    + destruct enc as [enc|]; [|exact Hc].
      destruct (String.eqb_spec enc "hex") as [->|Hne];
        [|rewrite (enc_not_hex enc) by exact Hne; exact Hc].
      destruct (truthy_hex self) as [hex|]; [exact Hc|].
      cbn [snd]. destruct (mutable self); [exact Hc|].
      now apply set_hhash_coherent.
    + destruct (toHead self) as [bytes|e]; cbn [JS.bind]; [|exact Hc].
      set (c := digest_of scrypt_derive self bytes).
      destruct (mutable self) eqn:Hm.
      * destruct enc as [enc|]; [|exact Hc].
        destruct (String.eqb_spec enc "hex") as [->|Hne];
          [|rewrite (enc_not_hex enc) by exact Hne; exact Hc].
        destruct (truthy_hex self) as [hex|]; [exact Hc|].
        cbn [snd]. rewrite Hm. exact Hc.
      * pose proof (set_hash_coherent c self Hc Hcached) as Hc1.
        destruct enc as [enc|]; [|exact Hc1].
        destruct (String.eqb_spec enc "hex") as [->|Hne];
          [|rewrite (enc_not_hex enc) by exact Hne; exact Hc1].
        destruct (truthy_hex (set_hash (Some c) self)) as [hex|];
          [exact Hc1|].
        cbn [snd]. change (mutable (set_hash (Some c) self))
          with (mutable self). rewrite Hm.
        now apply set_hhash_coherent.
Qed.

(** X19. The hex form agrees with the digest.  On a block with coherent
    caches, [hash('hex')] returns the hex string of the bytes that [hash()]
    returns, and throws the same error where [hash()] throws, the block
    being left as it was. *)
Theorem hash_hex_agrees (self : t) :
  coherent self ->
  match hash scrypt_derive None self,
        hash scrypt_derive (Some "hex"%string) self with
  | (Ok (Raw d), _), (Ok (HexString hex), _) => hex = Hex.encode d
  | (Throw e, s1), (Throw e', s2) => e = e' /\ s1 = self /\ s2 = self
  | _, _ => False
  end.
Proof.
  intros Hc. unfold hash.
  destruct (_hash self) as [c|] eqn:Hcached.
  - destruct (truthy_hex self) as [hex|] eqn:Hhex; [|reflexivity].
    destruct (Hc hex Hhex) as (digest & Hd & ->). congruence.
  - destruct (toHead self) as [bytes|e]; cbn [JS.bind]; [|now repeat split].
    destruct (mutable self).
    + now rewrite (coherent_no_digest self Hc Hcached).
    + change (truthy_hex (set_hash (Some (digest_of scrypt_derive self bytes))
                                   self))
        with (truthy_hex self).
      now rewrite (coherent_no_digest self Hc Hcached).
Qed.

End HashFacts.

Section ParseSamples.
Import Bytes Wire AbstractBlock BlockHash.

(** 81 bytes [07]: the last one is not read. *)
Lemma fromHead_then_toHead_sample :
  exists b,
    fromHead create (repeat x07 81) = (Ok b, b) /\
    version b = 0x07070707 /\
    prevBlock b = Hex.encode (repeat x07 32) /\
    toHead b = Ok (repeat x07 80).
Proof.
  destruct (fromHead_then_toHead create (repeat x07 81))
    as (b & Hb & _ & Ht & _); [cbn; lia|].
  exists b. split; [exact Hb|].
  vm_compute in Hb. injection Hb as <-.
  split; [reflexivity|]. split; [reflexivity|]. exact Ht.
Defined.

(** 79 bytes [07] are one too few: the call throws at the nonce, and the
    new block has lost the version, the hashes, the time and the bits it
    was made with. *)
Lemma fromHead_short_input_sample :
  fst (fromHead create (repeat x07 79)) = Throw ReadError /\
  version (snd (fromHead create (repeat x07 79))) = 0x07070707 /\
  prevBlock (snd (fromHead create (repeat x07 79)))
  = Hex.encode (repeat x07 32) /\
  bits (snd (fromHead create (repeat x07 79))) = 0x07070707 /\
  nonce (snd (fromHead create (repeat x07 79))) = 0.
Proof.
  destruct (fromHead_short_input create (repeat x07 79))
    as (Ht & Hv & Hp & _ & _ & Hb & Hn & _); [cbn; lia|].
  split; [exact Ht|]. split; [exact Hv|]. split; [exact Hp|].
  split; [exact Hb|]. exact Hn.
Defined.

(** The version 1 header is hashed, then overwritten with the 80 bytes of
    the sample header: its hash is still the one of the version 1 header,
    which is not the hash of the sample header. *)
Lemma hash_outlives_fromHead_sample :
  exists d s1 bytes s2 d',
    hash (P := reference_primitives) Sample2.scrypt_derive None Sample2.header1
    = (Ok (Raw d), s1) /\
    toHead Sample.header = Ok bytes /\
    fst (fromHead s1 bytes) = Ok s2 /\
    same_header s2 Sample.header /\
    hash (P := reference_primitives) Sample2.scrypt_derive None s2
    = (Ok (Raw d), s2) /\
    fst (hash (P := reference_primitives) Sample2.scrypt_derive None
              (refresh s2)) = Ok (Raw d') /\
    fst (hash (P := reference_primitives) Sample2.scrypt_derive None
              Sample.header) = Ok (Raw d') /\
    d <> d'.
Proof.
  pose (r := hash (P := reference_primitives) Sample2.scrypt_derive None
                  Sample2.header1).
  pose (d := match fst r with Ok (Raw d) => d | _ => [] end).
  pose (bytes := match toHead Sample.header with Ok bs => bs | _ => [] end).
  pose (s2 := snd (fromHead (snd r) bytes)).
  destruct (hash_outlives_fromHead (P := reference_primitives)
              Sample2.scrypt_derive Sample2.header1 (snd r) s2 d bytes)
    as [Hstale Hfresh]; [reflexivity | vm_compute; reflexivity
                        | vm_compute; reflexivity |].
  exists d, (snd r), bytes, s2. eexists.
  split; [vm_compute; reflexivity|].
  split; [vm_compute; reflexivity|].
  split; [vm_compute; reflexivity|].
  split; [vm_compute; repeat split|].
  split; [exact Hstale|].
  split; [exact Hfresh|].
  split; [vm_compute; reflexivity|].
  vm_compute. discriminate.
Defined.

(** The sample header has no cached value. *)
Lemma hash_hex_agrees_sample :
  exists d hex s1 s2,
    hash (P := reference_primitives) Sample2.scrypt_derive None Sample.header
    = (Ok (Raw d), s1) /\
    hash (P := reference_primitives) Sample2.scrypt_derive (Some "hex"%string)
         Sample.header = (Ok (HexString hex), s2) /\
    hex = Hex.encode d.
Proof.
  pose proof (hash_hex_agrees (P := reference_primitives)
                Sample2.scrypt_derive Sample.header) as H.
  destruct (hash Sample2.scrypt_derive None Sample.header)
    as [[[d|hex']|e] s1] eqn:E1;
    destruct (hash Sample2.scrypt_derive (Some "hex"%string) Sample.header)
    as [[[d'|hex]|e'] s2] eqn:E2;
    try (vm_compute in E1; discriminate E1);
    try (vm_compute in E2; discriminate E2).
  exists d, hex, s1, s2. split; [reflexivity|]. split; [reflexivity|].
  apply H. intros h Hh. discriminate Hh.
Defined.

End ParseSamples.
